(** * id-tracker: a sparse, ordered set of pending identifiers

    Shallow embedding of [src/id-tracker.cpp]: the word-packed [block]
    bitmap, the ordered map from block index to block held by
    [id_tracker::pimpl], and the three operations [mark], [is_marked] and
    [pop_mark] of [id_tracker].

    Integers of a fixed width are modelled as [Z] with the wrap-around
    written where the source converts; the [std::map] is a [gmap] whose
    first entry ([begin()]) is the entry with the numerically smallest key;
    loops carry fuel and report when it runs out, so that termination is a
    theorem and not a property of the model. *)

From Stdlib Require Import ZArith Lia Sorted.
From stdpp Require Import base tactics option list numbers gmap fin_maps.

Local Open Scope Z_scope.

(** ** Constants (lines 9-11) *)

Definition BLOCK_BITS : Z := 16.
Definition BLOCK_SIZE : Z := 1 ≪ BLOCK_BITS.
Definition BLOCK_MASK : Z := BLOCK_SIZE - 1.

(** Number of [uint32_t] words of a block: [BLOCK_SIZE >> 5]. *)
Definition BLOCK_WORDS : Z := BLOCK_SIZE ≫ 5.

(** Conversion to [uint32_t]. *)
Definition uint32 (z : Z) : Z := z `mod` 2 ^ 32.

(** ** Outcomes

    [Ok] is a normal return.  [Fuel] says that a loop of the model ran out
    of fuel before its condition became false.  [Undefined] is the one
    undefined behaviour the source can run into on its own data:
    dereferencing [pending.begin()] of an empty map. *)

Inductive res (A : Type) : Type :=
| Ok (a : A)
| Fuel
| Undefined.
Arguments Ok {A} a.
Arguments Fuel {A}.
Arguments Undefined {A}.

#[global] Instance res_ret : MRet res := λ A a, Ok a.
#[global] Instance res_bind : MBind res := λ A B f m,
  match m with
  | Ok a => f a
  | Fuel => Fuel
  | Undefined => Undefined
  end.

(** A loop of [block] that ran out of fuel. *)
Definition of_fuel {A : Type} (o : option A) : res A :=
  match o with
  | Some a => Ok a
  | None => Fuel
  end.

(** ** struct block (lines 20-48) *)

Record block : Type := Block { bits : list Z }.

(** [block() : bits(BLOCK_SIZE >> 5, 0)] *)
Definition block_new : block := Block (replicate (Z.to_nat BLOCK_WORDS) 0).

(** [bits[i]].  Reading past the end of the vector is undefined in the
    source; every caller passes an offset below [BLOCK_SIZE], and the model
    reads 0 there. *)
Definition word (b : block) (i : Z) : Z := default 0 (bits b !! Z.to_nat i).

(** [1 << (i & 0x1f)], as a [uint32_t]. *)
Definition bit_mask (i : Z) : Z := uint32 (1 ≪ Z.land i 0x1f).

(** [operator[]]: [(bits[i >> 5] & (1 << (i & 0x1f))) > 0] *)
Definition block_get (b : block) (i : Z) : bool :=
  0 <? Z.land (word b (i ≫ 5)) (bit_mask i).

(** [set(i, value)].  Writing past the end of the vector is undefined in
    the source; every caller passes an offset below [BLOCK_SIZE], and the
    model leaves the block as it is there. *)
Definition block_set (b : block) (i : Z) (value : bool) : block :=
  let bit := word b (i ≫ 5) in
  let mask := bit_mask i in
  Block (<[Z.to_nat (i ≫ 5) :=
             if value then Z.lor bit mask
             else Z.land bit (uint32 (Z.lnot mask))]> (bits b)).

(** First loop of [next_set]:
    [while ((bit_i < (BLOCK_SIZE >> 5)) && (bits[bit_i] == 0)) ++bit_i;] *)
Fixpoint skip_zero_words (fuel : nat) (b : block) (bit_i : Z) : option Z :=
  if (bit_i <? BLOCK_WORDS) && (word b bit_i =? 0) then
    match fuel with
    | O => None
    | S fuel' => skip_zero_words fuel' b (uint32 (bit_i + 1))
    end
  else Some bit_i.

(** Second loop of [next_set]:
    [while ((bit & 1) == 0) { ++idx; bit >>= 1; }] *)
Fixpoint first_one (fuel : nat) (bit idx : Z) : option Z :=
  if Z.land bit 1 =? 0 then
    match fuel with
    | O => None
    | S fuel' => first_one fuel' (bit ≫ 1) (idx + 1)
    end
  else Some idx.

(** [next_set(start)].  [None] when one of the two loops runs out of fuel. *)
Definition next_set (b : block) (start : Z) : option Z :=
  bit_i ← skip_zero_words (Z.to_nat BLOCK_WORDS) b (uint32 (start ≫ 5));
  if BLOCK_WORDS <=? bit_i then Some BLOCK_SIZE
  else first_one 32 (word b bit_i) (uint32 (bit_i ≪ 5)).

(** A value of type [block]: [BLOCK_SIZE >> 5] words, each a [uint32_t]. *)
Definition block_wf (b : block) : Prop :=
  length (bits b) = Z.to_nat BLOCK_WORDS ∧
  Forall (λ w, 0 ≤ w < 2 ^ 32) (bits b).

(** ** struct id_tracker::pimpl (lines 51-66) *)

Record pimpl : Type := Pimpl {
  pending : gmap Z block;
  old_id : Z;
  next_start : option Z
}.

(** [pending.begin()]: the entry with the smallest key, [None] for
    [pending.end()] (the map is empty). *)
Definition first_key (m : gmap Z block) : option Z :=
  match (map_to_list m).*1 with
  | [] => None
  | k :: ks => Some (foldr Z.min k ks)
  end.

Definition map_begin (m : gmap Z block) : option (Z * block) :=
  k ← first_key m; b ← m !! k; Some (k, b).

(** [pending.empty()] *)
Definition map_empty (m : gmap Z block) : bool := bool_decide (m = ∅).

(** One execution of the body of the loop of [pop_min]: either [break] with
    the identifier found, or go round again. *)
Inductive iteration : Type :=
| Break (id : Z) (p : pimpl)
| Continue (p : pimpl).

(** Calls, and what a run of calls observes. *)
Inductive op : Type :=
| Mark (id : Z)
| IsMarked (id : Z)
| PopMark.

Inductive event : Type :=
| Marked (id : Z)
| Tested (id : Z) (r : bool)
| Popped (id : Z) (assertion : bool).

(** The identifiers marked in a run, and the identifiers its pops returned. *)
Fixpoint marked_ids (tr : list event) : gset Z :=
  match tr with
  | [] => ∅
  | Marked id :: tr => {[id]} ∪ marked_ids tr
  | _ :: tr => marked_ids tr
  end.

Fixpoint popped_ids (tr : list event) : gset Z :=
  match tr with
  | [] => ∅
  | Popped id _ :: tr => {[id]} ∪ popped_ids tr
  | _ :: tr => popped_ids tr
  end.

(** The set of pending identifiers that the events give when they are
    replayed in order from the set [s]: a mark adds its identifier, a pop
    takes away the identifier it returned. *)
Fixpoint replay (tr : list event) (s : gset Z) : gset Z :=
  match tr with
  | [] => s
  | Marked id :: tr => replay tr ({[id]} ∪ s)
  | Tested _ _ :: tr => replay tr s
  | Popped id _ :: tr => replay tr (s ∖ {[id]})
  end.

(** The identifiers that the pops of a run returned, in the order of the
    calls. *)
Fixpoint popped_list (tr : list event) : list Z :=
  match tr with
  | [] => []
  | Popped id _ :: tr => id :: popped_list tr
  | _ :: tr => popped_list tr
  end.

(** Every assertion of the pops of a run held. *)
Fixpoint assertions_hold (tr : list event) : Prop :=
  match tr with
  | [] => True
  | Popped _ a :: tr => a = true ∧ assertions_hold tr
  | _ :: tr => assertions_hold tr
  end.

(** Two instances of [osmid_t]: a signed and an unsigned 64-bit integer. *)
Definition int64_min : Z := - 2 ^ 63.
Definition int64_max : Z := 2 ^ 63 - 1.
Definition uint64_max : Z := 2 ^ 64 - 1.

Section id_tracker.

(** [osmid_t] is declared in a header that is not part of the sources at
    hand.  It is taken as a parameter: an integer type given by
    [std::numeric_limits<osmid_t>::min()] and [max()]. *)
Variables osmid_min osmid_max : Z.

(** Conversion of an integer to [osmid_t]: the value of the type that is
    congruent to it modulo the number of values of the type. *)
Definition osmid_cast (z : Z) : Z :=
  osmid_min + (z - osmid_min) `mod` (osmid_max - osmid_min + 1).

(** A value of type [osmid_t]. *)
Definition osmid (z : Z) : Prop := osmid_min ≤ z ≤ osmid_max.

(** [pimpl::get] (lines 68-78) *)
Definition get (p : pimpl) (id : Z) : bool :=
  let block := id ≫ BLOCK_BITS in
  let offset := Z.land id BLOCK_MASK in
  match pending p !! block with
  | Some b => block_get b offset
  | None => false
  end.

(** [pimpl::set] (lines 80-86).  [pending[block]] inserts a fresh block
    when the key is absent. *)
Definition set (p : pimpl) (id : Z) (value : bool) : pimpl :=
  let block := id ≫ BLOCK_BITS in
  let offset := Z.land id BLOCK_MASK in
  let b := default block_new (pending p !! block) in
  {| pending := <[block := block_set b offset value]> (pending p);
     old_id := old_id p;
     next_start := match next_start p with
                   | Some _ => None
                   | None => next_start p
                   end |}.

(** Body of the loop of [pimpl::pop_min] (lines 93-112). *)
Definition pop_min_body (p : pimpl) : res iteration :=
  match map_begin (pending p) with
  | None => Undefined
  | Some (k, b) =>
      let start := default 0 (next_start p) in
      b_itr ← of_fuel (next_set b start);
      if bool_decide (b_itr ≠ BLOCK_SIZE) then
        Ok (Break (osmid_cast (Z.lor (k ≪ BLOCK_BITS) b_itr))
              {| pending := <[k := block_set b b_itr false]> (pending p);
                 old_id := old_id p;
                 next_start := Some b_itr |})
      else
        Ok (Continue {| pending := delete k (pending p);
                        old_id := old_id p;
                        next_start := None |})
  end.

(** The loop of [pimpl::pop_min] (lines 90-115).  [n] counts the
    executions of the body so far; the count is returned with the result. *)
Fixpoint pop_min_loop (fuel : nat) (n : nat) (p : pimpl)
  : res (Z * pimpl * nat) :=
  if bool_decide (is_Some (next_start p)) || negb (map_empty (pending p)) then
    match fuel with
    | O => Fuel
    | S fuel' =>
        it ← pop_min_body p;
        match it with
        | Break id p' => Ok (id, p', S n)
        | Continue p' => pop_min_loop fuel' (S n) p'
        end
    end
  else Ok (osmid_max, p, n).

(** [pimpl::pop_min], with its number of loop iterations. *)
Definition pop_min_count (p : pimpl) : res (Z * pimpl * nat) :=
  pop_min_loop (S (size (pending p))) 0 p.

Definition pop_min (p : pimpl) : res (Z * pimpl) :=
  '(id, p', _) ← pop_min_count p; Ok (id, p').

(** [pimpl::pimpl()] and [id_tracker::id_tracker()] (lines 118-127) *)
Definition init : pimpl :=
  {| pending := ∅; old_id := osmid_min; next_start := None |}.

(** [id_tracker::mark] (lines 132-139) *)
Definition mark (id : Z) (t : pimpl) : pimpl :=
  let p := set t id true in
  {| pending := pending p; old_id := osmid_min; next_start := next_start p |}.

(** [id_tracker::is_marked] (lines 141-143): the result and the state
    after the call. *)
Definition is_marked (id : Z) (t : pimpl) : bool * pimpl := (get t id, t).

(** The condition asserted at line 148, on the result [id] of [pop_min]
    and the guard [old]. *)
Definition pop_assertion (id old : Z) : bool :=
  (old <? id) || (id =? osmid_max).

(** [id_tracker::pop_mark] (lines 145-152): the identifier returned, the
    state after the call, and whether the assertion of line 148 held.
    Where it does not hold, a build with assertions enabled aborts at that
    line; a build with [NDEBUG] goes on to the state given here. *)
Definition pop_mark (t : pimpl) : res (Z * pimpl * bool) :=
  '(id, p) ← pop_min t;
  Ok (id,
      {| pending := pending p; old_id := id; next_start := next_start p |},
      pop_assertion id (old_id p)).

(** ** Tracker states and runs *)

(** Every block of the map is a value of type [block]. *)
Definition blocks_wf (p : pimpl) : Prop :=
  map_Forall (λ _ b, block_wf b) (pending p).

(** The cursor, when set, is an offset of the first block of the map, and
    no flag of that block is set below it. *)
Definition cursor_ok (p : pimpl) : Prop :=
  ∀ s, next_start p = Some s →
    0 ≤ s < BLOCK_SIZE ∧
    ∃ k b, map_begin (pending p) = Some (k, b) ∧
           ∀ o, 0 ≤ o < s → block_get b o = false.

(** Every pending identifier is a value of type [osmid_t]. *)
Definition ids_ok (p : pimpl) : Prop := ∀ z, get p z = true → osmid z.

(** Every pending identifier is above the guard, unless it is the smallest
    value of the type. *)
Definition guard_ok (p : pimpl) : Prop :=
  ∀ z, get p z = true → old_id p < z ∨ z = osmid_min.

Record inv (p : pimpl) : Prop := Inv {
  inv_blocks : blocks_wf p;
  inv_cursor : cursor_ok p;
  inv_ids : ids_ok p
}.

(** The states a tracker can be in: those that calls of [mark],
    [is_marked] and [pop_mark] lead to from a fresh tracker.  A state
    after a [pop_mark] whose assertion did not hold is reached by a build
    without assertions only; it is counted too. *)
Inductive reachable : pimpl → Prop :=
| reachable_init : reachable init
| reachable_mark id t :
    reachable t → osmid id → reachable (mark id t)
| reachable_is_marked id t :
    reachable t → osmid id → reachable (is_marked id t).2
| reachable_pop_mark t id t' a :
    reachable t → pop_mark t = Ok (id, t', a) → reachable t'.

Definition op_ok (o : op) : Prop :=
  match o with
  | Mark id | IsMarked id => osmid id
  | PopMark => True
  end.

(** [run ops t]: the calls [ops] made in order on the tracker [t]; the
    state at the end and the events in the order of the calls. *)
Fixpoint run (ops : list op) (t : pimpl) : res (pimpl * list event) :=
  match ops with
  | [] => Ok (t, [])
  | Mark id :: ops =>
      '(t', tr) ← run ops (mark id t); Ok (t', Marked id :: tr)
  | IsMarked id :: ops =>
      let '(r, t1) := is_marked id t in
      '(t', tr) ← run ops t1; Ok (t', Tested id r :: tr)
  | PopMark :: ops =>
      '(id, t1, a) ← pop_mark t;
      '(t', tr) ← run ops t1; Ok (t', Popped id a :: tr)
  end.

(** * Words and bits *)

Section bits.

Lemma uint32_small z : 0 ≤ z < 2 ^ 32 → uint32 z = z.
Proof. intros. unfold uint32. by rewrite Z.mod_small. Qed.

Lemma land_31 i : Z.land i 0x1f = i `mod` 32.
Proof. change 0x1f with (Z.ones 5). by rewrite Z.land_ones. Qed.

Lemma shiftr_5 i : i ≫ 5 = i `div` 32.
Proof. by rewrite Z.shiftr_div_pow2. Qed.

Lemma bit_mask_pow2 i : bit_mask i = 2 ^ (i `mod` 32).
Proof.
  unfold bit_mask. rewrite land_31, Z.shiftl_1_l.
  apply uint32_small. split; [apply Z.pow_nonneg; lia|].
  apply Z.pow_lt_mono_r; [lia..|]. pose proof (Z.mod_pos_bound i 32). lia.
Qed.

Lemma land_pow2 w j :
  0 ≤ j → Z.land w (2 ^ j) = if Z.testbit w j then 2 ^ j else 0.
Proof.
  intros Hj. apply Z.bits_inj'. intros k Hk.
  rewrite Z.land_spec, Z.pow2_bits_eqb by done.
  destruct (Z.eqb_spec j k) as [->|Hne].
  - destruct (Z.testbit w k) eqn:E; [by rewrite Z.pow2_bits_true|by rewrite Z.bits_0].
  - rewrite andb_false_r.
    destruct (Z.testbit w j); [by rewrite Z.pow2_bits_false|by rewrite Z.bits_0].
Qed.

(** The flag at offset [i] of a block is bit [i mod 32] of word [i / 32]. *)
Lemma block_get_testbit b i :
  block_get b i = Z.testbit (word b (i `div` 32)) (i `mod` 32).
Proof.
  unfold block_get. rewrite bit_mask_pow2, shiftr_5.
  pose proof (Z.mod_pos_bound i 32).
  rewrite land_pow2 by lia. destruct (Z.testbit _ _); [|done].
  apply Z.ltb_lt, Z.pow_pos_nonneg; lia.
Qed.

Lemma uint32_range z : 0 ≤ uint32 z < 2 ^ 32.
Proof. unfold uint32. apply Z.mod_pos_bound. lia. Qed.

Lemma range_land_ones z : 0 ≤ z < 2 ^ 32 ↔ Z.land z (Z.ones 32) = z.
Proof.
  rewrite Z.land_ones by lia. split.
  - intros. by apply Z.mod_small.
  - intros <-. apply Z.mod_pos_bound. lia.
Qed.

Lemma lor_range a c : 0 ≤ a < 2 ^ 32 → 0 ≤ c < 2 ^ 32 → 0 ≤ Z.lor a c < 2 ^ 32.
Proof.
  rewrite !range_land_ones. intros Ha Hc.
  by rewrite Z.land_lor_distr_l, Ha, Hc.
Qed.

Lemma land_range a c : 0 ≤ a < 2 ^ 32 → 0 ≤ Z.land a c < 2 ^ 32.
Proof.
  rewrite !range_land_ones. intros Ha.
  by rewrite <-Z.land_assoc, (Z.land_comm c), Z.land_assoc, Ha.
Qed.

Lemma word_range b i : block_wf b → 0 ≤ word b i < 2 ^ 32.
Proof.
  intros [_ Hall]. unfold word.
  destruct (bits b !! Z.to_nat i) as [w|] eqn:E; simpl; [|lia].
  by eapply (Forall_lookup_1 _ _ _ _ Hall E).
Qed.

Lemma word_block_set b i v j :
  block_wf b → 0 ≤ i < BLOCK_SIZE → 0 ≤ j →
  word (block_set b i v) j =
    if bool_decide (j = i `div` 32) then
      if v then Z.lor (word b j) (2 ^ (i `mod` 32))
      else Z.land (word b j) (uint32 (Z.lnot (2 ^ (i `mod` 32))))
    else word b j.
Proof.
  intros [Hlen _] Hi Hj. unfold block_set, word at 1. simpl.
  rewrite bit_mask_pow2, shiftr_5.
  assert (0 ≤ i `div` 32 < BLOCK_WORDS) as Hw.
  { change BLOCK_WORDS with 2048. change BLOCK_SIZE with 65536 in Hi.
    Z.div_mod_to_equations. lia. }
  case_bool_decide as Heq.
  - subst j. rewrite list_lookup_insert_eq by lia. done.
  - rewrite list_lookup_insert_ne by lia. done.
Qed.

Lemma block_set_wf b i v : block_wf b → block_wf (block_set b i v).
Proof.
  intros Hwf. pose proof Hwf as [Hlen Hall]. split; simpl.
  - by rewrite length_insert.
  - apply Forall_insert; [done|].
    destruct v.
    + apply lor_range; [by apply word_range|apply uint32_range].
    + apply land_range. by apply word_range.
Qed.

Lemma block_new_wf : block_wf block_new.
Proof.
  unfold block_new. split; cbn [bits]; [by rewrite length_replicate|].
  apply Forall_replicate. lia.
Qed.

Lemma word_block_new i : word block_new i = 0.
Proof.
  unfold word, block_new. cbn [bits].
  destruct (replicate _ _ !! _) as [w|] eqn:E; [|done].
  by apply lookup_replicate in E as [-> _].
Qed.

Lemma block_get_new i : block_get block_new i = false.
Proof. by rewrite block_get_testbit, word_block_new, Z.bits_0. Qed.

Lemma block_get_set_eq b i v :
  block_wf b → 0 ≤ i < BLOCK_SIZE → block_get (block_set b i v) i = v.
Proof.
  intros Hwf Hi. pose proof (Z.mod_pos_bound i 32).
  rewrite block_get_testbit, word_block_set by (done || Z.div_mod_to_equations; lia).
  rewrite bool_decide_eq_true_2 by done. destruct v.
  - rewrite Z.lor_spec, Z.pow2_bits_true by lia. apply orb_true_r.
  - unfold uint32. rewrite Z.land_spec, Z.mod_pow2_bits_low by lia.
    rewrite Z.lnot_spec, Z.pow2_bits_true by lia. apply andb_false_r.
Qed.

Lemma block_get_set_ne b i j v :
  block_wf b → 0 ≤ i < BLOCK_SIZE → 0 ≤ j < BLOCK_SIZE → i ≠ j →
  block_get (block_set b i v) j = block_get b j.
Proof.
  intros Hwf Hi Hj Hne.
  pose proof (Z.mod_pos_bound i 32). pose proof (Z.mod_pos_bound j 32).
  rewrite !block_get_testbit, word_block_set by (done || Z.div_mod_to_equations; lia).
  case_bool_decide as Heq; [|done].
  assert (i `mod` 32 ≠ j `mod` 32) by (Z.div_mod_to_equations; lia).
  destruct v.
  - rewrite Z.lor_spec, Z.pow2_bits_false by lia. apply orb_false_r.
  - unfold uint32. rewrite Z.land_spec, Z.mod_pow2_bits_low by lia.
    rewrite Z.lnot_spec, Z.pow2_bits_false by lia. apply andb_true_r.
Qed.

(** Setting a flag that is set already changes nothing. *)
Lemma block_set_true_idem b i :
  block_wf b → 0 ≤ i < BLOCK_SIZE →
  block_set (block_set b i true) i true = block_set b i true.
Proof.
  intros Hwf Hi. unfold block_set at 1. f_equal.
  rewrite shiftr_5, bit_mask_pow2.
  rewrite word_block_set by (done || Z.div_mod_to_equations; lia).
  rewrite bool_decide_eq_true_2 by done.
  rewrite <-Z.lor_assoc, Z.lor_diag.
  unfold block_set. simpl. rewrite shiftr_5, bit_mask_pow2.
  by rewrite list_insert_insert_eq.
Qed.

End bits.

(** * The scan of a block *)

Section next_set.

Lemma skip_zero_words_spec b fuel j :
  0 ≤ j ≤ BLOCK_WORDS → BLOCK_WORDS ≤ j + Z.of_nat fuel →
  ∃ j', skip_zero_words fuel b j = Some j' ∧ j ≤ j' ≤ BLOCK_WORDS ∧
        (∀ i, j ≤ i < j' → word b i = 0) ∧
        (j' < BLOCK_WORDS → word b j' ≠ 0).
Proof.
  revert j. induction fuel as [|fuel IH]; intros j Hj Hfuel; cbn [skip_zero_words].
  - assert (j = BLOCK_WORDS) as -> by lia. rewrite Z.ltb_irrefl. cbn [andb].
    exists BLOCK_WORDS. repeat split; lia.
  - destruct (Z.ltb_spec j BLOCK_WORDS) as [Hlt|Hge]; cbn [andb].
    + destruct (Z.eqb_spec (word b j) 0) as [Hz|Hnz].
      * rewrite uint32_small by (change BLOCK_WORDS with 2048 in *; lia).
        destruct (IH (j + 1)) as (j' & -> & Hj' & Hzero & Hnon); [lia..|].
        exists j'. repeat split; [lia..| |done].
        intros i Hi. destruct (decide (i = j)) as [->|]; [done|].
        apply Hzero. lia.
      * exists j. repeat split; [lia..| |done]. intros; lia.
    + exists j. repeat split; [lia..| |]; intros; lia.
Qed.

Lemma first_one_spec fuel bit idx :
  0 < bit < 2 ^ Z.of_nat fuel →
  ∃ t, 0 ≤ t < Z.of_nat fuel ∧ first_one fuel bit idx = Some (idx + t) ∧
       Z.testbit bit t = true ∧ ∀ t', 0 ≤ t' < t → Z.testbit bit t' = false.
Proof.
  revert bit idx. induction fuel as [|fuel IH]; intros bit idx Hbit.
  { change (2 ^ Z.of_nat 0) with 1 in Hbit. lia. }
  cbn [first_one]. pose proof (Z.bit0_mod bit) as Hb0.
  change 1 with (Z.ones 1) at 1. rewrite Z.land_ones by lia.
  change (2 ^ 1) with 2.
  rewrite Nat2Z.inj_succ, Z.pow_succ_r in Hbit by lia.
  destruct (Z.eqb_spec (bit `mod` 2) 0) as [Heven|Hodd].
  - destruct (IH (bit ≫ 1) (idx + 1)) as (t & Ht & -> & Hset & Hclear).
    { rewrite Z.shiftr_div_pow2 by lia. change (2 ^ 1) with 2.
      Z.div_mod_to_equations. lia. }
    exists (t + 1). split; [lia|]. split; [f_equal; lia|]. split.
    + by rewrite Z.shiftr_spec in Hset by lia.
    + intros t' Ht'. destruct (decide (t' = 0)) as [->|].
      * destruct (Z.testbit bit 0); [simpl in Hb0; lia|done].
      * specialize (Hclear (t' - 1)). rewrite Z.shiftr_spec in Hclear by lia.
        replace (t' - 1 + 1) with t' in Hclear by lia. apply Hclear. lia.
  - exists 0. split; [lia|]. split; [f_equal; lia|]. split; [|intros; lia].
    destruct (Z.testbit bit 0); [done|]. simpl in Hb0. lia.
Qed.

(** What [next_set] computes: the search starts at the first bit of the
    word that holds [start], that is at offset [32 * (start / 32)]. *)
Lemma next_set_aligned b start :
  block_wf b → 0 ≤ start < BLOCK_SIZE →
  ∃ r, next_set b start = Some r ∧
       ((r = BLOCK_SIZE ∧
         ∀ o, 32 * (start `div` 32) ≤ o < BLOCK_SIZE → block_get b o = false) ∨
        (32 * (start `div` 32) ≤ r < BLOCK_SIZE ∧ block_get b r = true ∧
         ∀ o, 32 * (start `div` 32) ≤ o < r → block_get b o = false)).
Proof.
  intros Hwf Hstart. unfold next_set. rewrite shiftr_5.
  change BLOCK_SIZE with 65536 in *.
  assert (0 ≤ start `div` 32 < 2048) as Hw by (Z.div_mod_to_equations; lia).
  rewrite uint32_small by lia.
  destruct (skip_zero_words_spec b (Z.to_nat BLOCK_WORDS) (start `div` 32))
    as (j & -> & Hj & Hzero & Hnon); [change BLOCK_WORDS with 2048; lia..|].
  change BLOCK_WORDS with 2048 in *. cbn [mbind option_bind].
  assert (∀ o, 32 * (start `div` 32) ≤ o < 32 * j → block_get b o = false) as Hlow.
  { intros o Ho. rewrite block_get_testbit, Hzero, Z.bits_0; [done|].
    Z.div_mod_to_equations. lia. }
  destruct (Z.leb_spec 2048 j) as [Hge|Hlt].
  - exists 65536. split; [done|]. left. split; [done|].
    intros o Ho. apply Hlow. lia.
  - pose proof (word_range b j Hwf) as Hr.
    destruct (first_one_spec 32 (word b j) (uint32 (j ≪ 5)))
      as (t & Ht & -> & Hset & Hclear).
    { specialize (Hnon Hlt). change (Z.of_nat 32) with 32. lia. }
    rewrite Z.shiftl_mul_pow2, uint32_small by lia.
    change (2 ^ 5) with 32. change (Z.of_nat 32) with 32 in Ht.
    exists (j * 32 + t). split; [done|]. right.
    assert (∀ u, 0 ≤ u < 32 → (j * 32 + u) `div` 32 = j ∧ (j * 32 + u) `mod` 32 = u)
      as Hsplit by (intros; Z.div_mod_to_equations; lia).
    split; [lia|]. split.
    + rewrite block_get_testbit. by destruct (Hsplit t Ht) as [-> ->].
    + intros o Ho. destruct (decide (o < 32 * j)); [apply Hlow; lia|].
      rewrite block_get_testbit.
      destruct (Hsplit (o - j * 32)) as [H1 H2]; [lia|].
      replace (j * 32 + (o - j * 32)) with o in * by lia.
      rewrite H1, H2. apply Hclear. lia.
Qed.

End next_set.

(** * The first entry of the map *)

Section map_begin.

Implicit Types m : gmap Z block.

Lemma foldr_min_spec (k : Z) (ks : list Z) :
  (foldr Z.min k ks = k ∨ foldr Z.min k ks ∈ ks) ∧
  foldr Z.min k ks ≤ k ∧ ∀ x, x ∈ ks → foldr Z.min k ks ≤ x.
Proof.
  induction ks as [|a ks (Hin & Hle & Hall)]; cbn [foldr].
  - split; [by left|]. split; [lia|]. intros x Hx. by apply elem_of_nil in Hx.
  - split; [|split; [lia|]].
    + destruct (Z.min_spec a (foldr Z.min k ks)) as [[_ ->]|[_ ->]].
      * right. left.
      * destruct Hin as [->|Hin]; [by left|right; by right].
    + intros x [->|Hx]%elem_of_cons; [lia|]. specialize (Hall x Hx). lia.
Qed.

Lemma elem_of_keys m k : k ∈ (map_to_list m).*1 ↔ is_Some (m !! k).
Proof.
  rewrite list_elem_of_fmap. split.
  - intros ([k' b] & -> & Hin). exists b. by apply elem_of_map_to_list.
  - intros [b Hb]. exists (k, b). split; [done|]. by apply elem_of_map_to_list.
Qed.

Lemma first_key_None m : first_key m = None ↔ m = ∅.
Proof.
  unfold first_key. rewrite <-map_to_list_empty_iff.
  destruct (map_to_list m) as [|[k b] l]; cbn; split; done.
Qed.

Lemma first_key_Some m k :
  first_key m = Some k →
  is_Some (m !! k) ∧ ∀ k', is_Some (m !! k') → k ≤ k'.
Proof.
  unfold first_key. intros Hk.
  assert (∀ k', is_Some (m !! k') ↔ k' ∈ (map_to_list m).*1) as Hkeys
    by (intros; by rewrite elem_of_keys).
  destruct ((map_to_list m).*1) as [|k0 ks]; [done|]. injection Hk as <-.
  destruct (foldr_min_spec k0 ks) as (Hin & Hle & Hall). split.
  - apply Hkeys. destruct Hin as [->|Hin]; [left|by right].
  - intros k' [->|Hk']%Hkeys%elem_of_cons; [done|by apply Hall].
Qed.

(** [begin()] is the entry whose key is the smallest of the map. *)
Lemma map_begin_Some m k b :
  map_begin m = Some (k, b) ↔
  m !! k = Some b ∧ ∀ k', is_Some (m !! k') → k ≤ k'.
Proof.
  unfold map_begin. split.
  - destruct (first_key m) as [k0|] eqn:Hk0; [|done]. cbn.
    destruct (first_key_Some _ _ Hk0) as [_ Hmin].
    destruct (m !! k0) as [b0|] eqn:Hb0; [|done]. cbn.
    intros [= <- <-]. done.
  - intros [Hb Hmin].
    destruct (first_key m) as [k0|] eqn:Hk0.
    + destruct (first_key_Some _ _ Hk0) as [[b0 Hb0] Hmin0].
      assert (k0 = k) as ->.
      { specialize (Hmin k0). specialize (Hmin0 k).
        rewrite Hb0 in Hmin. rewrite Hb in Hmin0.
        pose proof (Hmin (mk_is_Some _ _ eq_refl)).
        pose proof (Hmin0 (mk_is_Some _ _ eq_refl)). lia. }
      cbn. by rewrite Hb.
    + apply first_key_None in Hk0. subst m. by rewrite lookup_empty in Hb.
Qed.

Lemma map_begin_None m : map_begin m = None ↔ m = ∅.
Proof.
  split.
  - unfold map_begin. destruct (first_key m) as [k0|] eqn:Hk0.
    + destruct (first_key_Some _ _ Hk0) as [[b0 Hb0] _]. cbn. by rewrite Hb0.
    + intros _. by apply first_key_None.
  - intros ->. done.
Qed.

Lemma map_begin_insert m k b b' :
  map_begin m = Some (k, b) → map_begin (<[k := b']> m) = Some (k, b').
Proof.
  rewrite !map_begin_Some. intros [Hb Hmin]. split.
  - by rewrite lookup_insert_eq.
  - intros k' Hk'. destruct (decide (k = k')) as [->|Hne]; [done|].
    rewrite lookup_insert_ne in Hk' by done. by apply Hmin.
Qed.

Lemma map_empty_true m : map_empty m = true ↔ m = ∅.
Proof. unfold map_empty. by rewrite bool_decide_eq_true. Qed.

End map_begin.

(** * Identifiers, block indices and offsets *)

Section identifiers.

Lemma id_split z :
  z = (z ≫ BLOCK_BITS) * BLOCK_SIZE + Z.land z BLOCK_MASK ∧
  0 ≤ Z.land z BLOCK_MASK < BLOCK_SIZE.
Proof.
  change BLOCK_MASK with (Z.ones 16). unfold BLOCK_BITS.
  rewrite Z.land_ones, Z.shiftr_div_pow2 by lia.
  change BLOCK_SIZE with 65536. change (2 ^ 16) with 65536.
  Z.div_mod_to_equations. lia.
Qed.

Lemma id_join k o :
  0 ≤ o < BLOCK_SIZE →
  (k * BLOCK_SIZE + o) ≫ BLOCK_BITS = k ∧
  Z.land (k * BLOCK_SIZE + o) BLOCK_MASK = o.
Proof.
  change BLOCK_MASK with (Z.ones 16). unfold BLOCK_BITS.
  rewrite Z.land_ones, Z.shiftr_div_pow2 by lia.
  change BLOCK_SIZE with 65536. change (2 ^ 16) with 65536.
  intros. Z.div_mod_to_equations. lia.
Qed.

(** [(k << BLOCK_BITS) | o] puts the offset under the block index. *)
Lemma lor_shiftl k o :
  0 ≤ o < BLOCK_SIZE → Z.lor (k ≪ BLOCK_BITS) o = k * BLOCK_SIZE + o.
Proof.
  intros Ho. rewrite <-Z.add_nocarry_lor.
  - unfold BLOCK_BITS. by rewrite Z.shiftl_mul_pow2.
  - apply Z.bits_inj'. intros n Hn. rewrite Z.land_spec, Z.bits_0.
    destruct (decide (n < BLOCK_BITS)).
    + by rewrite Z.shiftl_spec_low.
    + replace o with (o `mod` 2 ^ BLOCK_BITS) by (by apply Z.mod_small).
      rewrite Z.mod_pow2_bits_high; [apply andb_false_r|unfold BLOCK_BITS in *; lia].
Qed.

Lemma same_block z1 z2 :
  z1 ≫ BLOCK_BITS = z2 ≫ BLOCK_BITS →
  Z.land z1 BLOCK_MASK = Z.land z2 BLOCK_MASK → z1 = z2.
Proof.
  intros Hk Ho. destruct (id_split z1) as [H1 _].
  destruct (id_split z2) as [H2 _]. rewrite H1, H2. by rewrite Hk, Ho.
Qed.

End identifiers.

(** * The tracker *)

Implicit Types p t : pimpl.

Lemma osmid_cast_id z : osmid z → osmid_cast z = z.
Proof.
  unfold osmid, osmid_cast. intros Hz. rewrite Z.mod_small; lia.
Qed.

Lemma get_at p k b o :
  pending p !! k = Some b → 0 ≤ o < BLOCK_SIZE →
  get p (k * BLOCK_SIZE + o) = block_get b o.
Proof.
  intros Hb Ho. unfold get. destruct (id_join k o Ho) as [-> ->]. by rewrite Hb.
Qed.

Lemma get_true p z :
  get p z = true →
  ∃ b, pending p !! (z ≫ BLOCK_BITS) = Some b ∧
       block_get b (Z.land z BLOCK_MASK) = true.
Proof.
  unfold get. destruct (pending p !! _) as [b|]; [|done]. by exists b.
Qed.

Lemma get_init z : get init z = false.
Proof. unfold get. cbn. by rewrite lookup_empty. Qed.

Lemma default_block_wf p k :
  blocks_wf p → block_wf (default block_new (pending p !! k)).
Proof.
  intros Hwf. destruct (pending p !! k) as [b|] eqn:Hb; cbn.
  - by apply (Hwf k b).
  - apply block_new_wf.
Qed.

(** [set] writes the flag of [id] and no other. *)
Lemma get_set p id v z :
  blocks_wf p →
  get (set p id v) z = if bool_decide (z = id) then v else get p z.
Proof.
  intros Hwf. unfold get, set. cbn [pending].
  destruct (id_split id) as [_ Hoff]. destruct (id_split z) as [_ Hoffz].
  pose proof (default_block_wf p (id ≫ BLOCK_BITS) Hwf) as Hb.
  destruct (decide (z ≫ BLOCK_BITS = id ≫ BLOCK_BITS)) as [Hk|Hk].
  - rewrite Hk, lookup_insert_eq. case_bool_decide as Hz.
    + subst z. by apply block_get_set_eq.
    + rewrite block_get_set_ne; [..|done|done|]; [|done|].
      * destruct (pending p !! _) as [b|]; [done|]. apply block_get_new.
      * intros Ho. apply Hz. by apply same_block.
  - rewrite lookup_insert_ne by done. case_bool_decide as Hz; [|done].
    by subst z.
Qed.

Lemma set_blocks_wf p id v : blocks_wf p → blocks_wf (set p id v).
Proof.
  intros Hwf. unfold blocks_wf, set. cbn [pending].
  apply map_Forall_insert_2; [|done].
  apply block_set_wf. by apply default_block_wf.
Qed.

Lemma get_mark t id z :
  blocks_wf t →
  get (mark id t) z = if bool_decide (z = id) then true else get t z.
Proof. intros Hwf. by rewrite <-(get_set t id true z Hwf). Qed.

Lemma next_start_mark t id : next_start (mark id t) = None.
Proof. unfold mark, set. cbn. by destruct (next_start t). Qed.

Lemma mark_inv t id : inv t → osmid id → inv (mark id t).
Proof.
  intros [Hwf Hcur Hids] Hid. split.
  - by apply (set_blocks_wf t id true).
  - intros s Hs. by rewrite next_start_mark in Hs.
  - intros z. rewrite get_mark by done. case_bool_decide as Hz.
    + by subst z.
    + apply Hids.
Qed.

Lemma mark_guard_ok t id : inv t → osmid id → guard_ok (mark id t).
Proof.
  intros Hinv Hid z Hz. apply (inv_ids _ (mark_inv t id Hinv Hid)) in Hz.
  unfold osmid in Hz. cbn [old_id mark]. lia.
Qed.

Lemma init_inv : inv init.
Proof.
  split.
  - unfold blocks_wf. cbn. apply map_Forall_empty.
  - intros s Hs. done.
  - intros z Hz. by rewrite get_init in Hz.
Qed.

(** The two outcomes of one execution of the body of the loop. *)
Lemma pop_min_body_cases p :
  inv p → pending p ≠ ∅ →
  ∃ k b, map_begin (pending p) = Some (k, b) ∧
    ((∃ o, 0 ≤ o < BLOCK_SIZE ∧ block_get b o = true ∧
           (∀ o', 0 ≤ o' < o → block_get b o' = false) ∧
           pop_min_body p =
             Ok (Break (k * BLOCK_SIZE + o)
                   {| pending := <[k := block_set b o false]> (pending p);
                      old_id := old_id p;
                      next_start := Some o |})) ∨
     ((∀ o, 0 ≤ o < BLOCK_SIZE → block_get b o = false) ∧
      pop_min_body p =
        Ok (Continue {| pending := delete k (pending p);
                        old_id := old_id p;
                        next_start := None |}))).
Proof.
  intros [Hwf Hcur Hids] Hne.
  destruct (map_begin (pending p)) as [[k b]|] eqn:Hbegin;
    [|by apply map_begin_None in Hbegin].
  exists k, b. split; [done|].
  pose proof Hbegin as [Hb Hmin]%map_begin_Some.
  pose proof (Hwf k b Hb) as Hbwf. cbn beta in Hbwf.
  assert (0 ≤ default 0 (next_start p) < BLOCK_SIZE ∧
          ∀ o, 0 ≤ o < default 0 (next_start p) → block_get b o = false)
    as [Hstart Hbelow].
  { destruct (next_start p) as [s|] eqn:Hs; cbn.
    - destruct (Hcur s Hs) as (Hr & k0 & b0 & Hb0 & Hclear).
      rewrite Hbegin in Hb0. injection Hb0 as <- <-. done.
    - split; [done|]. intros; lia. }
  unfold pop_min_body. rewrite Hbegin.
  destruct (next_set_aligned b _ Hbwf Hstart) as (r & -> & Hr).
  cbn [of_fuel mbind res_bind].
  assert (32 * (default 0 (next_start p) `div` 32) ≤ default 0 (next_start p))
    as Hal by (Z.div_mod_to_equations; lia).
  destruct Hr as [[-> Hnone]|(Hr & Hset & Hclear)].
  - right. rewrite bool_decide_eq_false_2 by (intros ?; done). split; [|done].
    intros o Ho. destruct (decide (o < default 0 (next_start p))).
    + apply Hbelow. lia.
    + apply Hnone. lia.
  - left. exists r. rewrite bool_decide_eq_true_2 by lia.
    assert (0 ≤ r < BLOCK_SIZE) as Hr' by (Z.div_mod_to_equations; lia).
    split; [done|]. split; [done|]. split.
    + intros o Ho. destruct (decide (o < default 0 (next_start p))).
      * apply Hbelow. lia.
      * apply Hclear. lia.
    + rewrite lor_shiftl, osmid_cast_id; [done| |done].
      apply Hids. by rewrite (get_at p k b).
Qed.


(** The body found a set flag: it is the smallest pending identifier, and
    the body takes it out. *)
Lemma break_spec p k b o :
  inv p → map_begin (pending p) = Some (k, b) →
  0 ≤ o < BLOCK_SIZE → block_get b o = true →
  (∀ o', 0 ≤ o' < o → block_get b o' = false) →
  ∀ p', p' = {| pending := <[k := block_set b o false]> (pending p);
                old_id := old_id p;
                next_start := Some o |} →
  inv p' ∧
  get p (k * BLOCK_SIZE + o) = true ∧
  (∀ z, get p z = true → k * BLOCK_SIZE + o ≤ z) ∧
  get p' (k * BLOCK_SIZE + o) = false ∧
  (∀ z, z ≠ k * BLOCK_SIZE + o → get p' z = get p z) ∧
  map_begin (pending p') = Some (k, block_set b o false).
Proof.
  intros [Hwf Hcur Hids] Hbegin Ho Hset Hclear p' ->.
  pose proof Hbegin as [Hb Hmin]%map_begin_Some.
  pose proof (Hwf k b Hb) as Hbwf. cbn beta in Hbwf.
  assert (∀ z, z ≠ k * BLOCK_SIZE + o →
    get {| pending := <[k := block_set b o false]> (pending p);
           old_id := old_id p; next_start := Some o |} z = get p z) as Hother.
  { intros z Hz. unfold get. cbn [pending].
    destruct (id_split z) as [Hzeq Hzo].
    destruct (decide (z ≫ BLOCK_BITS = k)) as [Hk|Hk].
    - rewrite Hk, lookup_insert_eq, Hb. apply block_get_set_ne; [done..|].
      intros Heq. apply Hz. rewrite Hzeq, Hk, <-Heq. done.
    - by rewrite lookup_insert_ne. }
  assert (get {| pending := <[k := block_set b o false]> (pending p);
                 old_id := old_id p; next_start := Some o |}
            (k * BLOCK_SIZE + o) = false) as Hgone.
  { rewrite (get_at _ k (block_set b o false)); [|by apply lookup_insert_eq|done].
    by apply block_get_set_eq. }
  split; [split|].
  - unfold blocks_wf. cbn [pending].
    apply map_Forall_insert_2; [by apply block_set_wf|done].
  - intros s [= <-]. split; [done|]. exists k, (block_set b o false).
    split; [by eapply map_begin_insert|].
    intros o' Ho'. rewrite block_get_set_ne by (done || lia). apply Hclear. lia.
  - intros z Hz. destruct (decide (z = k * BLOCK_SIZE + o)) as [->|Hne].
    + by rewrite Hgone in Hz.
    + rewrite Hother in Hz by done. by apply Hids.
  - split; [by rewrite (get_at p k b)|]. split; [|split; [done|split; [done|]]].
    + intros z Hz. destruct (get_true p z Hz) as (b' & Hb' & Hflag).
      destruct (id_split z) as [Hzeq Hzo].
      pose proof (Hmin _ (mk_is_Some _ _ Hb')) as Hle.
      destruct (decide (z ≫ BLOCK_BITS = k)) as [Hk|Hk].
      * rewrite Hk in Hb'. rewrite Hb in Hb'. injection Hb' as <-.
        destruct (decide (Z.land z BLOCK_MASK < o)) as [Hlt|Hge].
        -- rewrite Hclear in Hflag by lia. done.
        -- rewrite Hzeq, Hk. lia.
      * rewrite Hzeq. change BLOCK_SIZE with 65536 in *. nia.
    + by eapply map_begin_insert.
Qed.

(** The body found no set flag: nothing of the block was pending, and the
    body takes the block out. *)
Lemma continue_spec p k b :
  inv p → map_begin (pending p) = Some (k, b) →
  (∀ o, 0 ≤ o < BLOCK_SIZE → block_get b o = false) →
  ∀ p', p' = {| pending := delete k (pending p);
                old_id := old_id p;
                next_start := None |} →
  inv p' ∧ (∀ z, get p' z = get p z) ∧
  S (size (pending p')) = size (pending p).
Proof.
  intros [Hwf Hcur Hids] Hbegin Hnone p' ->.
  pose proof Hbegin as [Hb Hmin]%map_begin_Some.
  assert (∀ z, get {| pending := delete k (pending p); old_id := old_id p;
                      next_start := None |} z = get p z) as Hsame.
  { intros z. unfold get. cbn [pending]. destruct (id_split z) as [_ Hzo].
    destruct (decide (z ≫ BLOCK_BITS = k)) as [Hk|Hk].
    - rewrite Hk, lookup_delete_eq, Hb. symmetry. by apply Hnone.
    - by rewrite lookup_delete_ne. }
  split; [split|split; [done|]].
  - unfold blocks_wf. cbn [pending]. by apply map_Forall_delete.
  - intros s Hs. done.
  - intros z Hz. rewrite Hsame in Hz. by apply Hids.
  - cbn [pending]. rewrite map_size_delete_Some by done.
    assert (size (pending p) ≠ 0%nat); [|lia].
    apply map_size_non_empty_iff. intros Hempty.
    rewrite Hempty, lookup_empty in Hb. done.
Qed.

(** The loop of [pop_min] returns, given as much fuel as the map has
    blocks; what it returns and what it leaves. *)
Lemma pop_min_loop_spec fuel n p :
  inv p → (size (pending p) ≤ fuel)%nat →
  ∃ id p' n',
    pop_min_loop fuel n p = Ok (id, p', n') ∧
    (n ≤ n' ≤ n + size (pending p))%nat ∧
    old_id p' = old_id p ∧ inv p' ∧
    (∀ k, pending p !! k = None → pending p' !! k = None) ∧
    (∀ k b, map_begin (pending p) = Some (k, b) →
            (∀ o, 0 ≤ o < BLOCK_SIZE → block_get b o = false) →
            pending p' !! k = None) ∧
    ((get p id = true ∧ (∀ z, get p z = true → id ≤ z) ∧
      get p' id = false ∧ (∀ z, z ≠ id → get p' z = get p z) ∧
      ∃ b', map_begin (pending p') = Some (id ≫ BLOCK_BITS, b')) ∨
     ((∀ z, get p z = false) ∧ id = osmid_max ∧
      pending p' = ∅ ∧ next_start p' = None)).
Proof.
  revert n p. induction fuel as [|fuel IH]; intros n p Hinv Hfuel.
  - (* no fuel: the map is empty, and so the cursor is not set *)
    assert (pending p = ∅) as Hempty by (apply map_size_empty_iff; lia).
    assert (next_start p = None) as Hcur.
    { destruct (next_start p) as [s|] eqn:Hs; [|done].
      destruct (inv_cursor _ Hinv s Hs) as (_ & k & b & Hbegin & _).
      rewrite Hempty in Hbegin. done. }
    cbn [pop_min_loop]. rewrite Hcur, Hempty. cbn.
    exists osmid_max, p, n. rewrite Hempty, map_size_empty.
    split; [done|]. split; [lia|]. split; [done|]. split; [done|].
    split; [done|]. split.
    + intros k b Hbegin. done.
    + right. split; [|done]. intros z. unfold get.
      by rewrite Hempty, lookup_empty.
  - cbn [pop_min_loop].
    destruct (bool_decide (is_Some (next_start p)) || negb (map_empty (pending p)))
      eqn:Htest.
    + assert (pending p ≠ ∅) as Hne.
      { intros Hempty. apply orb_true_iff in Htest as [Hs|Hm].
        - apply bool_decide_eq_true in Hs as [s Hs].
          destruct (inv_cursor _ Hinv s Hs) as (_ & k & b & Hbegin & _).
          rewrite Hempty in Hbegin. done.
        - apply negb_true_iff in Hm.
          apply (proj2 (map_empty_true _)) in Hempty. congruence. }
      destruct (pop_min_body_cases p Hinv Hne) as (k & b & Hbegin & Hcases).
      destruct Hcases as [(o & Ho & Hset & Hclear & ->)|(Hnone & ->)];
        cbn [mbind res_bind].
      * destruct (break_spec p k b o Hinv Hbegin Ho Hset Hclear _ eq_refl)
          as (Hinv' & Hget & Hmin & Hgone & Hother & Hbegin').
        eexists _, _, _. split; [done|].
        assert (size (pending p) ≠ 0%nat)
          by (by apply map_size_non_empty_iff).
        split; [lia|]. split; [done|]. split; [done|]. split; [|split].
        -- intros k' Hk'. cbn [pending].
           destruct (decide (k = k')) as [->|Hkk].
           ++ apply map_begin_Some in Hbegin as [Hb _]. congruence.
           ++ by rewrite lookup_insert_ne.
        -- intros k0 b0 Hb0 Hb0none. rewrite Hbegin in Hb0.
           injection Hb0 as <- <-. rewrite Hb0none in Hset; done.
        -- left. destruct (id_join k o Ho) as [Hk _]. rewrite Hk. eauto 10.
      * destruct (continue_spec p k b Hinv Hbegin Hnone _ eq_refl)
          as (Hinv' & Hsame & Hsize).
        set (p1 := {| pending := delete k (pending p); old_id := old_id p;
                      next_start := None |}) in *.
        destruct (IH (S n) p1 Hinv') as
          (id & p' & n' & -> & Hn & Hold & Hinv'' & Hshrink & _ & Hres);
          [lia|].
        exists id, p', n'. split; [done|]. split; [lia|]. split; [done|].
        split; [done|]. split; [|split].
        -- intros k' Hk'. apply Hshrink. subst p1. cbn [pending].
           destruct (decide (k = k')) as [->|Hkk];
             [apply lookup_delete_eq|by rewrite lookup_delete_ne].
        -- intros k0 b0 Hb0 _. rewrite Hbegin in Hb0. injection Hb0 as <- <-.
           apply Hshrink. subst p1. cbn [pending]. apply lookup_delete_eq.
        -- destruct Hres as [(Hget & Hmin & Hgone & Hother & Hbegin')|
                              (Hnothing & -> & Hempty & Hcur)].
           ++ left. rewrite <-Hsame. split; [done|]. split.
              ** intros z Hz. apply Hmin. by rewrite Hsame.
              ** split; [done|]. split; [|done].
                 intros z Hz. rewrite <-Hsame. by apply Hother.
           ++ right. split; [|done]. intros z. rewrite <-Hsame. apply Hnothing.
    + (* the loop condition is false *)
      apply orb_false_iff in Htest as [Hs Hm].
      apply negb_false_iff, map_empty_true in Hm.
      apply bool_decide_eq_false in Hs.
      assert (next_start p = None) as Hcur.
      { destruct (next_start p); [|done]. destruct Hs. by eexists. }
      exists osmid_max, p, n. rewrite Hm, map_size_empty.
      split; [done|]. split; [lia|]. split; [done|]. split; [done|].
      split; [done|]. split.
      * intros k b Hbegin. done.
      * right. split; [|done]. intros z. unfold get.
        by rewrite Hm, lookup_empty.
Qed.

(** More fuel does not change what the loop returns. *)
Lemma pop_min_loop_fuel fuel fuel' n p r :
  pop_min_loop fuel n p = Ok r → (fuel ≤ fuel')%nat →
  pop_min_loop fuel' n p = Ok r.
Proof.
  revert fuel' n p. induction fuel as [|fuel IH]; intros fuel' n p Hr Hle.
  - destruct fuel'; cbn [pop_min_loop] in *;
      destruct (_ || _); done.
  - destruct fuel' as [|fuel']; [lia|]. cbn [pop_min_loop] in *.
    destruct (_ || _); [|done].
    destruct (pop_min_body p) as [[id p'|p']| |]; cbn [mbind res_bind] in *;
      [done| |done..].
    apply IH; [done|lia].
Qed.

Lemma get_pending p p' z : pending p' = pending p → get p' z = get p z.
Proof. unfold get. by intros ->. Qed.

Lemma inv_pending p p' :
  pending p' = pending p → next_start p' = next_start p → inv p → inv p'.
Proof.
  intros Hp Hs [Hwf Hcur Hids]. split.
  - unfold blocks_wf. by rewrite Hp.
  - unfold cursor_ok. by rewrite Hp, Hs.
  - intros z. rewrite (get_pending p p' z Hp). apply Hids.
Qed.

Lemma pop_assertion_max old : pop_assertion osmid_max old = true.
Proof. unfold pop_assertion. rewrite Z.eqb_refl. apply orb_true_r. Qed.

(** What a call of [pop_mark] does, from a state that satisfies the
    invariant. *)
Lemma pop_mark_spec t :
  inv t →
  ∃ id t' n p',
    pop_min_count t = Ok (id, p', n) ∧ (n ≤ size (pending t))%nat ∧
    pop_mark t = Ok (id, t', pop_assertion id (old_id t)) ∧
    old_id t' = id ∧ inv t' ∧
    (∀ k, pending t !! k = None → pending t' !! k = None) ∧
    (∀ k b, map_begin (pending t) = Some (k, b) →
            (∀ o, 0 ≤ o < BLOCK_SIZE → block_get b o = false) →
            pending t' !! k = None) ∧
    ((get t id = true ∧ (∀ z, get t z = true → id ≤ z) ∧
      get t' id = false ∧ (∀ z, z ≠ id → get t' z = get t z) ∧
      ∃ b', map_begin (pending t') = Some (id ≫ BLOCK_BITS, b')) ∨
     ((∀ z, get t z = false) ∧ id = osmid_max ∧
      pending t' = ∅ ∧ next_start t' = None)).
Proof.
  intros Hinv.
  destruct (pop_min_loop_spec (S (size (pending t))) 0 t Hinv)
    as (id & p' & n & Hloop & Hn & Hold & Hinv' & Hshrink & Hfirst & Hres);
    [lia|].
  exists id, {| pending := pending p'; old_id := id;
                next_start := next_start p' |}, n, p'.
  split; [done|]. split; [lia|]. split.
  { unfold pop_mark, pop_min, pop_min_count. rewrite Hloop.
    cbn [mbind res_bind]. by rewrite Hold. }
  split; [done|]. split; [by apply (inv_pending p')|].
  split; [done|]. split; [done|].
  destruct Hres as [(Hget & Hmin & Hgone & Hother & Hbegin)|
                    (Hnothing & -> & Hempty & Hcur)]; [left|right; done].
  split; [done|]. split; [done|]. split; [done|]. split; [|done].
  intros z Hz. rewrite <-(Hother z Hz). done.
Qed.

(** The invariant holds in every state of a tracker. *)
Lemma reachable_inv t : reachable t → inv t ∧ guard_ok t.
Proof.
  induction 1 as [|id t Hreach [IH1 IH2] Hid|id t Hreach IH Hid
                  |t id t' a Hreach [IH1 IH2] Hpop].
  - split; [apply init_inv|]. intros z Hz. by rewrite get_init in Hz.
  - split; [by apply mark_inv|by apply mark_guard_ok].
  - done.
  - destruct (pop_mark_spec t IH1)
      as (id0 & t0 & n & p' & _ & _ & Hpop' & Hold & Hinv' & _ & _ & Hres).
    rewrite Hpop in Hpop'. injection Hpop' as -> -> _.
    split; [done|]. intros z Hz. rewrite Hold. left.
    destruct Hres as [(Hget & Hmin & Hgone & Hother & _)|
                      (_ & _ & Hempty & _)].
    + destruct (decide (z = id0)) as [->|Hne]; [congruence|].
      rewrite Hother in Hz by done. specialize (Hmin z Hz). lia.
    + unfold get in Hz. rewrite Hempty, lookup_empty in Hz. done.
Qed.

(** The assertion of [pop_mark] can fail on one identifier only: the
    smallest value of [osmid_t]. *)
Lemma pop_assertion_unless_min t id t' :
  reachable t → pop_mark t = Ok (id, t', false) → id = osmid_min.
Proof.
  intros [Hinv Hguard]%reachable_inv Hpop.
  destruct (pop_mark_spec t Hinv)
    as (id0 & t0 & n & p' & _ & _ & Hpop' & _ & _ & _ & _ & Hres).
  rewrite Hpop in Hpop'. injection Hpop' as -> -> Ha.
  destruct Hres as [(Hget & _)|(_ & -> & _)].
  - destruct (Hguard id0 Hget) as [Hlt|]; [|done].
    unfold pop_assertion in Ha. apply Z.ltb_lt in Hlt. by rewrite Hlt in Ha.
  - by rewrite pop_assertion_max in Ha.
Qed.

(** A run of calls from a state whose pending set is [s]: the run goes
    through, and the pending set at its end is the replay of its events. *)
Lemma run_replay ops :
  ∀ t s, inv t → Forall op_ok ops →
    (∀ z, get t z = true ↔ z ∈ s) →
    ∃ t' tr, run ops t = Ok (t', tr) ∧ inv t' ∧
             ∀ z, get t' z = true ↔ z ∈ replay tr s.
Proof.
  induction ops as [|o ops IH]; intros t s Hinv Hops Hpend.
  { exists t, []. done. }
  apply Forall_cons in Hops as [Ho Hops].
  destruct o as [id|id|]; cbn [run].
  - destruct (IH (mark id t) ({[id]} ∪ s)) as (t' & tr & -> & Hinv' & Hrep);
      [by apply mark_inv|done| |].
    + intros z. rewrite get_mark by apply Hinv.
      rewrite elem_of_union, elem_of_singleton, <-Hpend.
      case_bool_decide as Hz; intuition congruence.
    + exists t', (Marked id :: tr). done.
  - unfold is_marked.
    destruct (IH t s) as (t' & tr & -> & Hinv' & Hrep); [done..|].
    exists t', (Tested id (get t id) :: tr). done.
  - destruct (pop_mark_spec t Hinv)
      as (id & t1 & n & p' & _ & _ & -> & _ & Hinv1 & _ & _ & Hres).
    cbn [mbind res_bind].
    destruct (IH t1 (s ∖ {[id]})) as (t' & tr & -> & Hinv' & Hrep);
      [done..| |].
    + intros z. rewrite elem_of_difference, elem_of_singleton, <-Hpend.
      destruct Hres as [(Hget & Hmin & Hgone & Hother & _)|
                        (Hnothing & _ & Hempty & _)].
      * destruct (decide (z = id)) as [->|Hne].
        -- rewrite Hgone. intuition congruence.
        -- rewrite Hother by done. tauto.
      * unfold get at 1. rewrite Hempty, lookup_empty, Hnothing.
        intuition congruence.
    + exists t', (Popped id (pop_assertion id (old_id t)) :: tr). done.
Qed.

(** Marking an identifier that is marked already changes nothing. *)
Lemma mark_mark t id : blocks_wf t → mark id (mark id t) = mark id t.
Proof.
  intros Hwf. unfold mark at 1. unfold set. cbn [pending next_start].
  rewrite next_start_mark.
  unfold mark at 1 2 3. unfold set. cbn [pending next_start old_id].
  rewrite lookup_insert_eq. cbn [from_option Datatypes.id].
  destruct (id_split id) as [_ Hoff].
  rewrite block_set_true_idem by (done || by apply default_block_wf).
  rewrite insert_insert_eq. unfold mark, set. cbn [pending next_start old_id].
  by destruct (next_start t).
Qed.

(** [pop_mark] when one identifier is pending, and when none is. *)
Lemma pop_mark_only t id :
  inv t → (∀ z, get t z = bool_decide (z = id)) →
  ∃ t1, pop_mark t = Ok (id, t1, pop_assertion id (old_id t)) ∧
        inv t1 ∧ ∀ z, get t1 z = false.
Proof.
  intros Hinv Hget.
  destruct (pop_mark_spec t Hinv)
    as (id0 & t1 & n & p' & _ & _ & Hpop & _ & Hinv1 & _ & _ & Hres).
  destruct Hres as [(Hid & _ & Hgone & Hother & _)|(Hnothing & _)].
  - rewrite Hget in Hid. apply bool_decide_eq_true in Hid as ->.
    exists t1. split; [done|]. split; [done|]. intros z.
    destruct (decide (z = id)) as [->|Hne]; [done|].
    rewrite Hother, Hget by done. by apply bool_decide_eq_false_2.
  - specialize (Hnothing id). rewrite Hget in Hnothing.
    by rewrite bool_decide_eq_true_2 in Hnothing.
Qed.

Lemma pop_mark_none t :
  inv t → (∀ z, get t z = false) →
  ∃ t1, pop_mark t = Ok (osmid_max, t1, true) ∧ pending t1 = ∅.
Proof.
  intros Hinv Hget.
  destruct (pop_mark_spec t Hinv)
    as (id0 & t1 & n & p' & _ & _ & Hpop & _ & Hinv1 & _ & _ & Hres).
  destruct Hres as [(Hid & _)|(_ & -> & Hempty & _)].
  - by rewrite Hget in Hid.
  - exists t1. by rewrite Hpop, pop_assertion_max.
Qed.


(** The guard is a value of [osmid_t]. *)
Lemma reachable_old_id t :
  osmid_min ≤ osmid_max → reachable t → osmid (old_id t).
Proof.
  intros Hle. induction 1 as [|id t Hreach IH Hid|id t Hreach IH Hid
                              |t id t' a Hreach IH Hpop].
  - unfold osmid. cbn [old_id init]. lia.
  - unfold osmid. cbn [old_id mark]. lia.
  - done.
  - destruct (reachable_inv t Hreach) as [Hinv _].
    destruct (pop_mark_spec t Hinv)
      as (id0 & t0 & n & p' & _ & _ & Hpop' & Hold & _ & _ & _ & Hres).
    rewrite Hpop in Hpop'. injection Hpop' as -> -> _. rewrite Hold.
    destruct Hres as [(Hget & _)|(_ & -> & _)].
    + by apply (inv_ids _ Hinv).
    + unfold osmid. lia.
Qed.

(** With the smallest value of [osmid_t] not pending, the condition
    asserted in [pop_mark] holds, and that value is not pending after the
    call either. *)
Lemma pop_assertion_holds t id t' a :
  reachable t → get t osmid_min = false → pop_mark t = Ok (id, t', a) →
  a = true ∧ get t' osmid_min = false.
Proof.
  intros Hreach Hmin Hpop.
  destruct (reachable_inv t Hreach) as [Hinv Hguard].
  destruct (pop_mark_spec t Hinv)
    as (id0 & t0 & n & p' & _ & _ & Hpop' & _ & _ & _ & _ & Hres).
  rewrite Hpop in Hpop'. injection Hpop' as -> -> ->.
  destruct Hres as [(Hget & _ & Hgone & Hother & _)|(_ & -> & Hempty & _)].
  - split.
    + destruct (Hguard id0 Hget) as [Hlt| ->]; [|congruence].
      unfold pop_assertion. apply Z.ltb_lt in Hlt. by rewrite Hlt.
    + destruct (decide (osmid_min = id0)) as [->|Hne]; [done|].
      by rewrite Hother.
  - split; [apply pop_assertion_max|]. unfold get.
    by rewrite Hempty, lookup_empty.
Qed.

(** A run of calls that never marks the smallest value of [osmid_t]:
    every assertion on the way holds. *)
Lemma run_assertions_hold ops :
  ∀ t, reachable t → get t osmid_min = false →
    Forall op_ok ops → Forall (λ o, o ≠ Mark osmid_min) ops →
    ∃ t' tr, run ops t = Ok (t', tr) ∧ assertions_hold tr ∧
             reachable t' ∧ get t' osmid_min = false.
Proof.
  induction ops as [|o ops IH]; intros t Hreach Hmin Hops Hnomin.
  { exists t, []. done. }
  apply Forall_cons in Hops as [Ho Hops].
  apply Forall_cons in Hnomin as [Hne Hnomin].
  destruct (reachable_inv t Hreach) as [Hinv _].
  destruct o as [id|id|]; cbn [run].
  - destruct (IH (mark id t)) as (t' & tr & -> & Hflags & Hreach' & Hmin');
      [by apply reachable_mark| |done..|].
    + rewrite get_mark by apply Hinv.
      rewrite bool_decide_eq_false_2; [done|]. intros ->. by apply Hne.
    + exists t', (Marked id :: tr). done.
  - unfold is_marked.
    destruct (IH t) as (t' & tr & -> & Hflags & Hreach' & Hmin'); [done..|].
    exists t', (Tested id (get t id) :: tr). done.
  - destruct (pop_mark_spec t Hinv)
      as (id & t1 & n & p' & _ & _ & Hpop & _).
    destruct (pop_assertion_holds t _ _ _ Hreach Hmin Hpop) as [Ha Hmin1].
    rewrite Hpop. cbn [mbind res_bind].
    destruct (IH t1) as (t' & tr & -> & Hflags & Hreach' & Hmin');
      [by eapply reachable_pop_mark|done..|].
    exists t', (Popped id (pop_assertion id (old_id t)) :: tr). done.
Qed.

(** A call of [is_marked] put into a run of calls: the run ends in the
    same state, and its events are the same, with the one of the call
    put in. *)
Lemma run_insert_is_marked ops1 :
  ∀ ops2 id t t' tr,
    run (ops1 ++ ops2) t = Ok (t', tr) →
    ∃ tr1 tr2 r,
      tr = tr1 ++ tr2 ∧ length tr1 = length ops1 ∧
      run (ops1 ++ IsMarked id :: ops2) t =
        Ok (t', tr1 ++ Tested id r :: tr2).
Proof.
  induction ops1 as [|o ops1 IH]; intros ops2 id t t' tr Hrun.
  - exists [], tr, (get t id). split; [done|]. split; [done|].
    cbn [app run is_marked] in *. by rewrite Hrun.
  - cbn [app run] in *. destruct o as [id0|id0|].
    + destruct (run (ops1 ++ ops2) (mark id0 t)) as [[t0 tr0]| |] eqn:Hrest;
        cbn [mbind res_bind] in Hrun; [|done..].
      injection Hrun as <- <-.
      destruct (IH _ id _ _ _ Hrest) as (tr1 & tr2 & r & -> & Hlen & ->).
      exists (Marked id0 :: tr1), tr2, r. cbn. by rewrite Hlen.
    + unfold is_marked in *.
      destruct (run (ops1 ++ ops2) t) as [[t0 tr0]| |] eqn:Hrest;
        cbn [mbind res_bind] in Hrun; [|done..].
      injection Hrun as <- <-.
      destruct (IH _ id _ _ _ Hrest) as (tr1 & tr2 & r & -> & Hlen & ->).
      exists (Tested id0 (get t id0) :: tr1), tr2, r. cbn. by rewrite Hlen.
    + destruct (pop_mark t) as [[[id1 t1] a1]| |] eqn:Hpop;
        cbn [mbind res_bind] in Hrun |- *; [|done..].
      destruct (run (ops1 ++ ops2) t1) as [[t0 tr0]| |] eqn:Hrest;
        cbn [mbind res_bind] in Hrun; [|done..].
      injection Hrun as <- <-.
      destruct (IH _ id _ _ _ Hrest) as (tr1 & tr2 & r & -> & Hlen & ->).
      exists (Popped id1 a1 :: tr1), tr2, r. cbn. by rewrite Hlen.
Qed.

(** * The claims *)

(** C1: [pop_mark] does not return the smallest pending identifier when
    that is the smallest value of [osmid_t].  In every state of a tracker
    in which that value is pending, it is the smallest pending
    identifier and [pop_min] finds it, but the condition asserted at
    line 148 is false: a build with assertions aborts, where the claim
    has the call return the identifier. *)
Theorem pop_mark_min_pending_aborts t :
  osmid_min < osmid_max → reachable t → get t osmid_min = true →
  (∀ z, get t z = true → osmid_min ≤ z) ∧
  ∃ t', pop_mark t = Ok (osmid_min, t', false).
Proof.
  intros Hlt Hreach Hget.
  destruct (reachable_inv t Hreach) as [Hinv _].
  assert (∀ z, get t z = true → osmid_min ≤ z) as Hsmallest.
  { intros z Hz. by apply (inv_ids _ Hinv) in Hz as [? _]. }
  split; [done|].
  destruct (pop_mark_spec t Hinv)
    as (id & t' & n & p' & _ & _ & Hpop & _ & _ & _ & _ & Hres).
  destruct Hres as [(Hid & Hmin & _)|(Hnothing & _)];
    [|by rewrite Hnothing in Hget].
  assert (id = osmid_min) as ->.
  { specialize (Hmin _ Hget). specialize (Hsmallest _ Hid). lia. }
  exists t'. rewrite Hpop. do 3 f_equal.
  destruct (reachable_old_id t) as [Hold _]; [lia|done|].
  unfold pop_assertion. apply orb_false_iff. split.
  - apply Z.ltb_ge. done.
  - apply Z.eqb_neq. lia.
Qed.

(** C2, as amended.  For a block [b] and a [start] in 0..65535,
    [next_set] returns.  The search starts at the first bit of the 32-bit
    word that holds [start], at offset [32 * (start / 32)]: the result is
    the smallest offset at or after it whose flag is set, and [BLOCK_SIZE]
    exactly when no flag is set at or after it.  When no flag is set in
    that word below [start], the result is the smallest offset at or after
    [start] whose flag is set, and [BLOCK_SIZE] exactly when there is
    none. *)
Theorem next_set_word_aligned b start :
  block_wf b → 0 ≤ start < BLOCK_SIZE →
  ∃ r, next_set b start = Some r ∧
    (r = BLOCK_SIZE ↔
       ∀ o, 32 * (start `div` 32) ≤ o < BLOCK_SIZE → block_get b o = false) ∧
    (r ≠ BLOCK_SIZE →
       32 * (start `div` 32) ≤ r < BLOCK_SIZE ∧ block_get b r = true ∧
       ∀ o, 32 * (start `div` 32) ≤ o < r → block_get b o = false) ∧
    ((∀ o, 32 * (start `div` 32) ≤ o < start → block_get b o = false) →
       (r = BLOCK_SIZE ↔
          ∀ o, start ≤ o < BLOCK_SIZE → block_get b o = false) ∧
       (r ≠ BLOCK_SIZE →
          start ≤ r < BLOCK_SIZE ∧ block_get b r = true ∧
          ∀ o, start ≤ o < r → block_get b o = false)).
Proof.
  intros Hwf Hstart.
  destruct (next_set_aligned b start Hwf Hstart) as (r & Hr & Hcases).
  exists r. split; [done|].
  assert (32 * (start `div` 32) ≤ start) as Hal
    by (Z.div_mod_to_equations; lia).
  destruct Hcases as [[-> Hnone]|(Hrange & Hset & Hclear)].
  - split; [done|]. split; [done|]. intros _. split; [|done].
    split; [|done]. intros _ o Ho. apply Hnone. lia.
  - assert (r ≠ BLOCK_SIZE) as Hne by lia.
    assert (∀ lo, lo ≤ r →
              ¬ (∀ o, lo ≤ o < BLOCK_SIZE → block_get b o = false)) as Hnot.
    { intros lo Hlo Hall. rewrite Hall in Hset by lia. done. }
    split; [split; [done|]|].
    { intros Hall. by destruct (Hnot _ (proj1 Hrange)). }
    split; [done|]. intros Hbelow.
    assert (start ≤ r) as Hsr.
    { destruct (decide (start ≤ r)); [done|].
      rewrite Hbelow in Hset by lia. done. }
    split; [split; [done|]|].
    { intros Hall. by destruct (Hnot _ Hsr). }
    intros _. split; [lia|]. split; [done|].
    intros o Ho. apply Hclear. lia.
Qed.

(** C3, as amended.  After a call of [pop_mark] that returns a pending
    identifier, the block of that identifier is still in the map, and it
    is the first block of the map.  When the identifier was the only
    pending one of its block, the block stays with every flag clear, and
    it is the call of [pop_mark] that follows directly which takes it out
    of the map. *)
Theorem popped_block_stays t id t' a :
  reachable t → pop_mark t = Ok (id, t', a) → get t id = true →
  ∃ b', pending t' !! (id ≫ BLOCK_BITS) = Some b' ∧
        map_begin (pending t') = Some (id ≫ BLOCK_BITS, b') ∧
        ((∀ z, z ≫ BLOCK_BITS = id ≫ BLOCK_BITS → get t z = true → z = id) →
           (∀ o, 0 ≤ o < BLOCK_SIZE → block_get b' o = false) ∧
           ∃ id2 t2 a2,
             pop_mark t' = Ok (id2, t2, a2) ∧
             pending t2 !! (id ≫ BLOCK_BITS) = None).
Proof.
  intros [Hinv _]%reachable_inv Hpop Hget.
  destruct (pop_mark_spec t Hinv)
    as (id0 & t0 & n & p' & _ & _ & Hpop' & _ & Hinv' & _ & _ & Hres).
  rewrite Hpop in Hpop'. injection Hpop' as -> -> _.
  destruct Hres as [(_ & Hmin & Hgone & Hother & b' & Hbegin)|
                    (Hnothing & _)]; [|by rewrite Hnothing in Hget].
  pose proof Hbegin as [Hb _]%map_begin_Some.
  exists b'. split; [done|]. split; [done|]. intros Honly.
  assert (∀ o, 0 ≤ o < BLOCK_SIZE → block_get b' o = false) as Hclear.
  { intros o Ho. rewrite <-(get_at t0 _ _ _ Hb Ho).
    destruct (decide (id0 ≫ BLOCK_BITS * BLOCK_SIZE + o = id0)) as [->|Hne];
      [done|].
    rewrite Hother by done.
    destruct (get t (id0 ≫ BLOCK_BITS * BLOCK_SIZE + o)) eqn:Hz; [|done].
    destruct Hne.
    apply Honly; [|done]. destruct (id_join (id0 ≫ BLOCK_BITS) o Ho) as [Hk _].
    exact Hk. }
  split; [done|].
  destruct (pop_mark_spec t0 Hinv')
    as (id2 & t2 & n2 & p2 & _ & _ & Hpop2 & _ & _ & _ & Hfirst & _).
  exists id2, t2, (pop_assertion id2 (old_id t0)). split; [done|].
  by apply (Hfirst _ b').
Qed.

(** C4: the assertion of [pop_mark] fails on a reachable state.  After
    [mark] of the smallest value of [osmid_t] on a fresh tracker,
    [pop_mark] finds that identifier, and the asserted condition is
    false: the identifier is not above the guard, which [mark] has set to
    that same value, and it is not the largest value. *)
Theorem pop_mark_assertion_fails_on_min :
  osmid_min < osmid_max →
  reachable (mark osmid_min init) ∧
  ∃ t', pop_mark (mark osmid_min init) = Ok (osmid_min, t', false).
Proof.
  intros Hlt.
  assert (osmid osmid_min) as Hmin by (unfold osmid; lia).
  assert (reachable (mark osmid_min init)) as Hreach
    by (apply reachable_mark; [apply reachable_init|done]).
  split; [done|].
  destruct (reachable_inv _ Hreach) as [Hinv _].
  destruct (pop_mark_spec _ Hinv)
    as (id & t' & n & p' & _ & _ & Hpop & _ & _ & _ & _ & Hres).
  assert (∀ z, get (mark osmid_min init) z = bool_decide (z = osmid_min))
    as Hget.
  { intros z. rewrite get_mark by apply init_inv. rewrite get_init.
    by case_bool_decide. }
  destruct Hres as [(Hid & _)|(Hnothing & _)].
  - rewrite Hget in Hid. apply bool_decide_eq_true in Hid as ->.
    exists t'. rewrite Hpop. do 3 f_equal. unfold pop_assertion. cbn [old_id mark].
    rewrite Z.ltb_irrefl. cbn [orb]. apply Z.eqb_neq. lia.
  - specialize (Hnothing osmid_min). rewrite Hget in Hnothing.
    by rewrite bool_decide_eq_true_2 in Hnothing.
Qed.

(** C5, as amended.  A run of [mark], [is_marked] and [pop_mark] calls on
    a fresh tracker goes through, and at its end [is_marked] holds of the
    identifiers that the replay of the run gives: each [mark] adds its
    identifier, each [pop_mark] takes away the identifier it returned.
    Marking an identifier that is marked already changes nothing; after
    two marks of one identifier on a fresh tracker, one pop returns it,
    nothing is pending any more, and the next pop returns the largest
    value of [osmid_t]. *)
Theorem is_marked_replay ops id :
  Forall op_ok ops → osmid id →
  (∃ t tr, run ops init = Ok (t, tr) ∧
           ∀ z, (is_marked z t).1 = true ↔ z ∈ replay tr ∅) ∧
  (∀ t, reachable t → mark id (mark id t) = mark id t) ∧
  (∃ t1 a t2,
     pop_mark (mark id (mark id init)) = Ok (id, t1, a) ∧
     (∀ z, (is_marked z t1).1 = false) ∧
     pop_mark t1 = Ok (osmid_max, t2, true)).
Proof.
  intros Hops Hid. split; [|split].
  - destruct (run_replay ops init ∅ init_inv Hops) as (t & tr & Hrun & _ & Hrep).
    + intros z. rewrite get_init, elem_of_empty. intuition congruence.
    + by exists t, tr.
  - intros t [[Hwf _ _] _]%reachable_inv. by apply mark_mark.
  - rewrite mark_mark by apply init_inv.
    destruct (pop_mark_only (mark id init) id) as (t1 & Hpop1 & Hinv1 & Hnone).
    + by apply mark_inv; [apply init_inv|].
    + intros z. rewrite get_mark by apply init_inv. rewrite get_init.
      by case_bool_decide.
    + destruct (pop_mark_none t1 Hinv1 Hnone) as (t2 & Hpop2 & _).
      by exists t1, (pop_assertion id (old_id (mark id init))), t2.
Qed.

(** C6.  From any state, [is_marked id] right after [mark id] returns
    true, for every identifier; in particular for 0, for the smallest and
    for the largest value of [osmid_t]. *)
Theorem mark_then_is_marked t :
  blocks_wf t →
  (∀ id, (is_marked id (mark id t)).1 = true) ∧
  (is_marked 0 (mark 0 t)).1 = true ∧
  (is_marked osmid_min (mark osmid_min t)).1 = true ∧
  (is_marked osmid_max (mark osmid_max t)).1 = true.
Proof.
  intros Hwf.
  assert (∀ id, (is_marked id (mark id t)).1 = true) as Hall.
  { intros id. cbn [is_marked fst]. rewrite get_mark by done.
    by rewrite bool_decide_eq_true_2. }
  by repeat split.
Qed.

(** C7.  What [mark id] does to a state: the flag of [id] is set, in the
    block of [id], which is a fresh block with that one flag when the map
    had no block for it; the cursor is cleared; the guard is the smallest
    value of [osmid_t]; every other flag, of this block and of the other
    blocks, is as before, and no other block is added, taken out or
    changed. *)
Theorem mark_effects t id :
  blocks_wf t →
  get (mark id t) id = true ∧
  (∀ z, z ≠ id → get (mark id t) z = get t z) ∧
  next_start (mark id t) = None ∧
  old_id (mark id t) = osmid_min ∧
  (∀ k, k ≠ id ≫ BLOCK_BITS → pending (mark id t) !! k = pending t !! k) ∧
  (∃ b', pending (mark id t) !! (id ≫ BLOCK_BITS) = Some b' ∧ block_wf b' ∧
         block_get b' (Z.land id BLOCK_MASK) = true ∧
         ∀ o, 0 ≤ o < BLOCK_SIZE → o ≠ Z.land id BLOCK_MASK →
              block_get b' o =
                match pending t !! (id ≫ BLOCK_BITS) with
                | Some b => block_get b o
                | None => false
                end).
Proof.
  intros Hwf. destruct (id_split id) as [_ Hoff].
  pose proof (default_block_wf t (id ≫ BLOCK_BITS) Hwf) as Hb.
  split; [by rewrite get_mark, bool_decide_eq_true_2|].
  split; [intros z Hz; by rewrite get_mark, bool_decide_eq_false_2|].
  split; [apply next_start_mark|]. split; [done|]. split.
  - intros k Hk. cbn [mark set pending]. by rewrite lookup_insert_ne.
  - eexists. split; [cbn [mark set pending]; apply lookup_insert_eq|].
    split; [by apply block_set_wf|]. split; [by apply block_get_set_eq|].
    intros o Ho Hne. rewrite block_get_set_ne by done.
    destruct (pending t !! (id ≫ BLOCK_BITS)); [done|apply block_get_new].
Qed.

(** C8.  [is_marked] leaves the state as it is, map, cursor and guard.
    It returns true exactly when the map has a block for [id] and the
    bit of [id] is set in the word of that block that holds it; when the
    map has no block for [id] it returns false, and the map has no block
    for [id] afterwards either.  So a call of [is_marked] put anywhere
    into a run of calls changes neither the state the run ends in nor
    what its other calls return. *)
Theorem is_marked_pure t id :
  (is_marked id t).2 = t ∧
  ((is_marked id t).1 = true ↔
     ∃ b, pending t !! (id ≫ BLOCK_BITS) = Some b ∧
          Z.testbit (word b (Z.land id BLOCK_MASK `div` 32))
                    (Z.land id BLOCK_MASK `mod` 32) = true) ∧
  (pending t !! (id ≫ BLOCK_BITS) = None →
   (is_marked id t).1 = false ∧
   pending (is_marked id t).2 !! (id ≫ BLOCK_BITS) = None) ∧
  (∀ ops1 ops2 t' tr,
     run (ops1 ++ ops2) t = Ok (t', tr) →
     ∃ tr1 tr2 r,
       tr = tr1 ++ tr2 ∧ length tr1 = length ops1 ∧
       run (ops1 ++ IsMarked id :: ops2) t =
         Ok (t', tr1 ++ Tested id r :: tr2)).
Proof.
  split; [done|]. split; [|split].
  - cbn [is_marked fst]. unfold get.
    destruct (pending t !! (id ≫ BLOCK_BITS)) as [b|].
    + rewrite block_get_testbit. split.
      * intros Hbit. by exists b.
      * by intros (b' & [= <-] & Hbit).
    + split; [done|]. by intros (b' & [=] & _).
  - intros Hnone. cbn [is_marked fst snd]. split; [|done].
    unfold get. by rewrite Hnone.
  - intros ops1 ops2 t' tr Hrun. by apply run_insert_is_marked.
Qed.

(** C9.  In every state of a tracker, a cursor that is set comes with a
    map that is not empty.  So when the condition of the loop of
    [pop_min] holds the map has a first entry and the body runs on it;
    and a call of [pop_mark] returns: no iteration of the loop
    dereferences the end of an empty map. *)
Theorem cursor_set_map_nonempty t :
  reachable t →
  (is_Some (next_start t) → pending t ≠ ∅) ∧
  (bool_decide (is_Some (next_start t)) || negb (map_empty (pending t)) = true →
     ∃ k b it, map_begin (pending t) = Some (k, b) ∧ pop_min_body t = Ok it) ∧
  (∃ id t' a, pop_mark t = Ok (id, t', a)).
Proof.
  intros [Hinv _]%reachable_inv.
  assert (is_Some (next_start t) → pending t ≠ ∅) as Hne.
  { intros [s Hs] Hempty.
    destruct (inv_cursor _ Hinv s Hs) as (_ & k & b & Hbegin & _).
    rewrite Hempty in Hbegin. done. }
  split; [done|]. split.
  - intros Htest.
    assert (pending t ≠ ∅) as Hne'.
    { apply orb_true_iff in Htest as [Hs|Hm].
      - apply bool_decide_eq_true in Hs. by apply Hne.
      - intros Hempty%map_empty_true. by rewrite Hempty in Hm. }
    destruct (pop_min_body_cases t Hinv Hne') as (k & b & Hbegin & Hcases).
    exists k, b. destruct Hcases as [(o & _ & _ & _ & ->)|(_ & ->)]; eauto.
  - destruct (pop_mark_spec t Hinv) as (id & t' & n & p' & _ & _ & Hpop & _).
    eauto.
Qed.

(** C10.  In every state of a tracker [pop_min] terminates: given as much
    fuel as the map has blocks, or more, the loop returns, and always the
    same; its body has run at most once for each block of the map, which
    is within the number of blocks plus one.  An execution of the body
    either returns an identifier or takes one block out of the map. *)
Theorem pop_min_terminates t :
  reachable t →
  ∃ id p' n,
    pop_min_count t = Ok (id, p', n) ∧
    (n ≤ size (pending t))%nat ∧ (n ≤ size (pending t) + 1)%nat ∧
    (∀ fuel, (size (pending t) ≤ fuel)%nat →
             pop_min_loop fuel 0 t = Ok (id, p', n)) ∧
    (bool_decide (is_Some (next_start t)) || negb (map_empty (pending t)) = true →
       (∃ id1 p1, pop_min_body t = Ok (Break id1 p1)) ∨
       (∃ p1, pop_min_body t = Ok (Continue p1) ∧
              S (size (pending p1)) = size (pending t))).
Proof.
  intros [Hinv _]%reachable_inv.
  destruct (pop_min_loop_spec (size (pending t)) 0 t Hinv)
    as (id & p' & n & Hloop & Hn & _); [done|].
  exists id, p', n.
  split; [by apply (pop_min_loop_fuel (size (pending t))); [|lia]|].
  split; [lia|]. split; [lia|]. split.
  - intros fuel Hfuel. by apply (pop_min_loop_fuel (size (pending t))).
  - intros Htest.
    assert (pending t ≠ ∅) as Hne.
    { apply orb_true_iff in Htest as [Hs|Hm].
      - apply bool_decide_eq_true in Hs as [s Hs]. intros Hempty.
        destruct (inv_cursor _ Hinv s Hs) as (_ & k & b & Hbegin & _).
        rewrite Hempty in Hbegin. done.
      - intros Hempty%map_empty_true. by rewrite Hempty in Hm. }
    destruct (pop_min_body_cases t Hinv Hne) as (k & b & Hbegin & Hcases).
    destruct Hcases as [(o & _ & _ & _ & ->)|(Hnone & ->)]; [left; eauto|].
    right. eexists. split; [done|].
    by destruct (continue_spec t k b Hinv Hbegin Hnone _ eq_refl) as (_ & _ & ?).
Qed.

(** * Further properties of the code *)

(** ** The block *)

Lemma word_lookup b n :
  block_wf b → 0 ≤ n < BLOCK_WORDS →
  bits b !! Z.to_nat n = Some (word b n).
Proof.
  intros [Hlen _] Hn. unfold word.
  destruct (bits b !! Z.to_nat n) as [w|] eqn:E; [done|].
  apply lookup_ge_None in E. lia.
Qed.

Lemma word_index i :
  0 ≤ i < BLOCK_SIZE → 0 ≤ i `div` 32 < BLOCK_WORDS ∧ 0 ≤ i `mod` 32 < 32.
Proof.
  change BLOCK_SIZE with 65536. change BLOCK_WORDS with 2048.
  intros. Z.div_mod_to_equations. lia.
Qed.

Lemma testbit_high w n : 0 ≤ w < 2 ^ 32 → 32 ≤ n → Z.testbit w n = false.
Proof.
  intros Hw Hn. rewrite <-(Z.mod_small w (2 ^ 32)) by done.
  apply Z.mod_pow2_bits_high. lia.
Qed.

(** Writing a flag back to the value it had changes nothing in a word. *)
Lemma lor_land_restore w j :
  0 ≤ w < 2 ^ 32 → 0 ≤ j < 32 → Z.testbit w j = false →
  Z.land (Z.lor w (2 ^ j)) (uint32 (Z.lnot (2 ^ j))) = w.
Proof.
  intros Hw Hj Hbit. apply Z.bits_inj'. intros n Hn.
  rewrite Z.land_spec, Z.lor_spec. unfold uint32.
  destruct (decide (n < 32)) as [Hlt|Hge].
  - rewrite Z.mod_pow2_bits_low, Z.lnot_spec, Z.pow2_bits_eqb by lia.
    destruct (Z.eqb_spec j n) as [->|_]; cbn [negb].
    + by rewrite Hbit, orb_true_r.
    + by rewrite orb_false_r, andb_true_r.
  - rewrite Z.mod_pow2_bits_high, testbit_high by lia. apply andb_false_r.
Qed.

Lemma land_lor_restore w j :
  0 ≤ w < 2 ^ 32 → 0 ≤ j < 32 → Z.testbit w j = true →
  Z.lor (Z.land w (uint32 (Z.lnot (2 ^ j)))) (2 ^ j) = w.
Proof.
  intros Hw Hj Hbit. apply Z.bits_inj'. intros n Hn.
  rewrite Z.lor_spec, Z.land_spec, Z.pow2_bits_eqb by lia. unfold uint32.
  destruct (decide (n < 32)) as [Hlt|Hge].
  - rewrite Z.mod_pow2_bits_low, Z.lnot_spec, Z.pow2_bits_eqb by lia.
    destruct (Z.eqb_spec j n) as [->|_]; cbn [negb].
    + by rewrite Hbit, orb_true_r.
    + by rewrite orb_false_r, andb_true_r.
  - rewrite Z.mod_pow2_bits_high, (testbit_high w n) by lia.
    destruct (Z.eqb_spec j n); [lia|done].
Qed.

(** X1.  [operator[]] after [set]: at the offset written it reads the
    value written, at every other offset of the block what was there
    before; [set] keeps the block at [BLOCK_SIZE >> 5] words of 32 bits. *)
Theorem block_get_after_set b i j v :
  block_wf b → 0 ≤ i < BLOCK_SIZE → 0 ≤ j < BLOCK_SIZE →
  block_get (block_set b i v) j =
    (if bool_decide (j = i) then v else block_get b j) ∧
  block_wf (block_set b i v).
Proof.
  intros Hwf Hi Hj. split; [|by apply block_set_wf].
  case_bool_decide as Heq.
  - subst j. by apply block_get_set_eq.
  - apply block_get_set_ne; done.
Qed.

(** X2.  A write that is undone gives the block back as it was: after
    [set(i, !v)] and [set(i, v)] on a block whose flag at [i] is [v] the
    vector of words is the one before the two writes. *)
Theorem block_set_undo b i v :
  block_wf b → 0 ≤ i < BLOCK_SIZE → block_get b i = v →
  block_set (block_set b i (negb v)) i v = b.
Proof.
  intros Hwf Hi Hget. destruct (word_index i Hi) as [Hw Hm].
  pose proof (word_range b (i `div` 32) Hwf) as Hr.
  rewrite block_get_testbit in Hget.
  unfold block_set at 1. rewrite shiftr_5, bit_mask_pow2.
  rewrite word_block_set by (done || lia).
  rewrite bool_decide_eq_true_2 by done.
  unfold block_set. cbn [bits]. rewrite shiftr_5, bit_mask_pow2.
  rewrite list_insert_insert_eq.
  pose proof (word_lookup b _ Hwf Hw) as Hl.
  destruct b as [l]. cbn [bits] in *. f_equal.
  apply list_insert_id. rewrite Hl. f_equal. symmetry.
  destruct v; cbn [negb].
  - by apply land_lor_restore.
  - by apply lor_land_restore.
Qed.

(** X3.  A fresh block has no flag set, and [next_set] on it returns
    [BLOCK_SIZE] from every start. *)
Theorem next_set_block_new start :
  0 ≤ start < BLOCK_SIZE →
  next_set block_new start = Some BLOCK_SIZE ∧
  ∀ o, block_get block_new o = false.
Proof.
  intros Hstart. split; [|apply block_get_new].
  destruct (next_set_aligned block_new start block_new_wf Hstart)
    as (r & -> & [[-> _]|(_ & Hset & _)]); [done|].
  by rewrite block_get_new in Hset.
Qed.

(** Two writes of [true] to a block can be made in either order. *)
Lemma block_set_true_comm b i j :
  block_wf b → 0 ≤ i < BLOCK_SIZE → 0 ≤ j < BLOCK_SIZE →
  block_set (block_set b i true) j true =
  block_set (block_set b j true) i true.
Proof.
  intros Hwf Hi Hj.
  destruct (word_index i Hi) as [Hwi _]. destruct (word_index j Hj) as [Hwj _].
  unfold block_set at 1 3. rewrite !shiftr_5, !bit_mask_pow2.
  rewrite !word_block_set by (done || lia).
  unfold block_set. cbn [bits]. rewrite !shiftr_5, !bit_mask_pow2. f_equal.
  destruct (decide (i `div` 32 = j `div` 32)) as [Heq|Hne].
  - rewrite !bool_decide_eq_true_2 by done. rewrite Heq.
    rewrite !list_insert_insert_eq. f_equal.
    rewrite <-!Z.lor_assoc. f_equal. apply Z.lor_comm.
  - rewrite !bool_decide_eq_false_2 by done.
    apply list_insert_insert_ne. lia.
Qed.

(** ** The map of blocks *)

(** X4.  [pimpl::set] with either value: [get] of the identifier
    written returns the value written, [get] of every other identifier
    what it returned before; the cursor is cleared, the guard is left
    alone, and the blocks stay values of type [block]. *)
Theorem get_after_set p id v :
  blocks_wf p →
  get (set p id v) id = v ∧
  (∀ z, z ≠ id → get (set p id v) z = get p z) ∧
  next_start (set p id v) = None ∧
  old_id (set p id v) = old_id p ∧
  blocks_wf (set p id v).
Proof.
  intros Hwf. split; [by rewrite get_set, bool_decide_eq_true_2|].
  split; [intros z Hz; by rewrite get_set, bool_decide_eq_false_2|].
  split; [unfold set; cbn; by destruct (next_start p)|].
  split; [done|by apply set_blocks_wf].
Qed.

Lemma block_set_new_false o :
  0 ≤ o < BLOCK_SIZE → block_set block_new o false = block_new.
Proof.
  intros Ho. destruct (word_index o Ho) as [Hw _].
  pose proof (word_lookup block_new _ block_new_wf Hw) as Hl.
  unfold block_set. rewrite shiftr_5, word_block_new, Z.land_0_l.
  rewrite word_block_new in Hl. rewrite list_insert_id by done.
  by destruct block_new.
Qed.

(** X5.  Clearing an identifier whose block is not in the map puts a
    block into the map all the same: a block with no flag set.  The map
    has one block more, and [get] returns what it returned before, for
    every identifier. *)
Theorem set_false_creates_block p id :
  blocks_wf p → pending p !! (id ≫ BLOCK_BITS) = None →
  pending (set p id false) = <[id ≫ BLOCK_BITS := block_new]> (pending p) ∧
  size (pending (set p id false)) = S (size (pending p)) ∧
  ∀ z, get (set p id false) z = get p z.
Proof.
  intros Hwf Hnone. destruct (id_split id) as [_ Hoff].
  assert (pending (set p id false) =
          <[id ≫ BLOCK_BITS := block_new]> (pending p)) as Hmap.
  { unfold set. cbn [pending]. rewrite Hnone. cbn [from_option].
    by rewrite block_set_new_false. }
  split; [done|]. split.
  - rewrite Hmap. by apply map_size_insert_None.
  - intros z. rewrite get_set by done. case_bool_decide as Hz; [|done].
    subst z. unfold get. by rewrite Hnone.
Qed.


(** ** The tracker *)

(** X7.  Two calls of [mark] can be made in either order: the state is
    the same. *)
Theorem mark_comm t id1 id2 :
  blocks_wf t → mark id1 (mark id2 t) = mark id2 (mark id1 t).
Proof.
  intros Hwf.
  destruct (id_split id1) as [_ Ho1]. destruct (id_split id2) as [_ Ho2].
  assert (∀ t' a, mark a t' =
            {| pending :=
                 <[a ≫ BLOCK_BITS :=
                     block_set (default block_new (pending t' !! (a ≫ BLOCK_BITS)))
                       (Z.land a BLOCK_MASK) true]> (pending t');
               old_id := osmid_min;
               next_start := None |}) as Hmark.
  { intros t' a. unfold mark, set. cbn [pending next_start].
    by destruct (next_start t'). }
  rewrite !Hmark. cbn [pending]. f_equal.
  destruct (decide (id1 ≫ BLOCK_BITS = id2 ≫ BLOCK_BITS)) as [Hk|Hk].
  - rewrite Hk, !lookup_insert_eq, !insert_insert_eq. cbn [from_option].
    f_equal. apply block_set_true_comm; [by apply default_block_wf|done..].
  - rewrite !lookup_insert_ne by done. by apply insert_insert_ne.
Qed.

(** X8.  Two calls of [pop_mark] in a row, from a state in which the
    smallest value of [osmid_t] is not pending: both return, with the
    condition asserted in each holding; the second identifier is not
    below the first, and it is above it unless nothing was pending after
    the first call, where it is the largest value of [osmid_t]. *)
Theorem pop_mark_twice_ascending t :
  reachable t → get t osmid_min = false →
  ∃ id1 t1 id2 t2,
    pop_mark t = Ok (id1, t1, true) ∧ pop_mark t1 = Ok (id2, t2, true) ∧
    id1 ≤ id2 ∧
    (id1 < id2 ∨ (id2 = osmid_max ∧ ∀ z, get t1 z = false)).
Proof.
  intros Hreach Hnomin. destruct (reachable_inv t Hreach) as [Hinv _].
  destruct (pop_mark_spec t Hinv)
    as (id1 & t1 & n1 & p1 & _ & _ & Hpop1 & Hold1 & Hinv1 & _ & _ & Hres1).
  destruct (pop_assertion_holds t _ _ _ Hreach Hnomin Hpop1) as [Ha1 _].
  rewrite Ha1 in Hpop1.
  destruct (pop_mark_spec t1 Hinv1)
    as (id2 & t2 & n2 & p2 & _ & _ & Hpop2 & _ & _ & _ & _ & Hres2).
  exists id1, t1, id2, t2. split; [done|].
  assert (id1 ≤ osmid_max) as Hmax.
  { destruct Hres1 as [(Hget & _)|(_ & -> & _)]; [|done].
    by apply (inv_ids _ Hinv) in Hget as [_ ?]. }
  destruct Hres2 as [(Hget2 & _)|(Hnothing & -> & _)].
  - assert (id1 < id2) as Hlt.
    { destruct Hres1 as [(_ & Hmin & Hgone & Hother & _)|(_ & _ & Hempty & _)].
      - destruct (decide (id2 = id1)) as [->|Hne]; [congruence|].
        rewrite Hother in Hget2 by done. specialize (Hmin _ Hget2). lia.
      - unfold get in Hget2. by rewrite Hempty, lookup_empty in Hget2. }
    split; [|split; [lia|by left]].
    rewrite Hpop2. do 2 f_equal. unfold pop_assertion. rewrite Hold1.
    apply Z.ltb_lt in Hlt. by rewrite Hlt.
  - rewrite Hpop2, pop_assertion_max. split; [done|]. split; [done|].
    by right.
Qed.

(** Popping as many times as identifiers are pending returns them all,
    in ascending order. *)
Lemma drain_spec n :
  ∀ t (s : gset Z), inv t → (∀ z, get t z = true ↔ z ∈ s) → size s = n →
    ∃ t' tr, run (replicate n PopMark) t = Ok (t', tr) ∧
             StronglySorted Z.lt (popped_list tr) ∧
             (∀ z, z ∈ popped_list tr ↔ z ∈ s) ∧
             ∀ z, get t' z = false.
Proof.
  induction n as [|n IH]; intros t s Hinv Hpend Hsize.
  - apply size_empty_iff in Hsize. exists t, []. split; [done|].
    split; [constructor|]. split.
    + intros z. rewrite elem_of_nil. split; [done|]. intros Hz.
      by apply Hsize in Hz.
    + intros z. destruct (get t z) eqn:Hz; [|done].
      apply Hpend, Hsize in Hz. done.
  - destruct (size_pos_elem_of s) as [x Hx]; [lia|].
    destruct (pop_mark_spec t Hinv)
      as (id & t1 & n1 & p1 & _ & _ & Hpop & _ & Hinv1 & _ & _ & Hres).
    destruct Hres as [(Hget & Hmin & Hgone & Hother & _)|(Hnothing & _)].
    2: { apply Hpend in Hx. by rewrite Hnothing in Hx. }
    assert (id ∈ s) as Hid by by apply Hpend.
    destruct (IH t1 (s ∖ {[id]}) Hinv1) as (t' & tr & Hrun & Hsorted & Hmem & Hnone).
    { intros z. rewrite elem_of_difference, elem_of_singleton, <-Hpend.
      destruct (decide (z = id)) as [->|Hne].
      - rewrite Hgone. intuition congruence.
      - rewrite Hother by done. tauto. }
    { rewrite size_difference, size_singleton, Hsize; [lia|].
      by apply singleton_subseteq_l. }
    exists t', (Popped id (pop_assertion id (old_id t)) :: tr).
    split; [|split; [|split; [|done]]].
    + cbn [replicate run]. rewrite Hpop. cbn [mbind res_bind].
      by rewrite Hrun.
    + cbn [popped_list]. apply SSorted_cons; [done|].
      apply Forall_forall. intros z Hz.
      apply Hmem, elem_of_difference in Hz as [Hzs Hne].
      rewrite elem_of_singleton in Hne.
      apply Hpend, Hmin in Hzs. lia.
    + intros z. cbn [popped_list].
      rewrite elem_of_cons, Hmem, elem_of_difference, elem_of_singleton.
      destruct (decide (z = id)) as [->|Hne]; tauto.
Qed.

(** X9.  After a run of calls on a fresh tracker that never marks the
    smallest value of [osmid_t], as many calls of [pop_mark] as
    identifiers are pending return exactly the pending identifiers, each
    once, in strictly ascending order, and leave none pending; every
    assertion holds, in the run and in the pops after it. *)
Theorem drain_ascending ops :
  Forall op_ok ops → Forall (λ o, o ≠ Mark osmid_min) ops →
  ∃ t tr t' tr',
    run ops init = Ok (t, tr) ∧ assertions_hold tr ∧
    run (replicate (size (replay tr ∅)) PopMark) t = Ok (t', tr') ∧
    assertions_hold tr' ∧
    StronglySorted Z.lt (popped_list tr') ∧
    (∀ z, z ∈ popped_list tr' ↔ (is_marked z t).1 = true) ∧
    (∀ z, (is_marked z t').1 = false).
Proof.
  intros Hops Hnomin.
  destruct (run_replay ops init ∅ init_inv Hops) as (t & tr & Hrun & Hinv & Hrep).
  { intros z. rewrite get_init, elem_of_empty. intuition congruence. }
  destruct (run_assertions_hold ops init reachable_init (get_init _) Hops Hnomin)
    as (t0 & tr0 & Hrun0 & Hflags & Hreach & Hmin).
  rewrite Hrun in Hrun0. injection Hrun0 as <- <-.
  destruct (drain_spec (size (replay tr ∅)) t _ Hinv Hrep eq_refl)
    as (t' & tr' & Hdrain & Hsorted & Hmem & Hnone).
  destruct (run_assertions_hold (replicate (size (replay tr ∅)) PopMark) t
              Hreach Hmin)
    as (t1 & tr1 & Hdrain1 & Hflags1 & _).
  { by apply Forall_replicate. }
  { by apply Forall_replicate. }
  rewrite Hdrain in Hdrain1. injection Hdrain1 as <- <-.
  exists t, tr, t', tr'. split; [done|]. split; [done|]. split; [done|].
  split; [done|]. split; [done|].
  split; [|done]. intros z. cbn [is_marked fst]. by rewrite Hmem, Hrep.
Qed.

(** X10.  [pop_mark] puts no block into the map: the keys after the
    call are keys before it.  [mark] puts at most one block into the map:
    the block of the identifier, when the map has none for it. *)
Theorem block_count t :
  reachable t →
  (∃ id t' a, pop_mark t = Ok (id, t', a) ∧
              dom (pending t') ⊆@{gset Z} dom (pending t) ∧
              (size (pending t') ≤ size (pending t))%nat) ∧
  (∀ id, size (pending (mark id t)) =
           match pending t !! (id ≫ BLOCK_BITS) with
           | Some _ => size (pending t)
           | None => S (size (pending t))
           end).
Proof.
  intros [Hinv _]%reachable_inv. split.
  - destruct (pop_mark_spec t Hinv)
      as (id & t' & n & p' & _ & _ & Hpop & _ & _ & Hshrink & _).
    exists id, t', (pop_assertion id (old_id t)). split; [done|].
    assert (dom (pending t') ⊆@{gset Z} dom (pending t)) as Hdom.
    { intros k [b Hb]%elem_of_dom. apply elem_of_dom.
      destruct (pending t !! k) as [b0|] eqn:Hk; [done|].
      rewrite (Hshrink k Hk) in Hb. done. }
    split; [done|]. by apply dom_subseteq_size.
  - intros id. cbn [mark set pending]. rewrite map_size_insert.
    by destruct (pending t !! (id ≫ BLOCK_BITS)).
Qed.

(** X11.  When [pop_mark] returns the largest value of [osmid_t],
    nothing is pending after the call, whether that identifier was
    pending or not; the condition asserted in the call holds. *)
Theorem pop_mark_max_means_drained t t' a :
  reachable t → pop_mark t = Ok (osmid_max, t', a) →
  a = true ∧ ∀ z, get t' z = false.
Proof.
  intros [Hinv _]%reachable_inv Hpop.
  destruct (pop_mark_spec t Hinv)
    as (id & t0 & n & p' & _ & _ & Hpop' & _ & _ & _ & _ & Hres).
  rewrite Hpop in Hpop'. injection Hpop' as <- <- ->.
  split; [apply pop_assertion_max|]. intros z.
  destruct Hres as [(Hget & Hmin & Hgone & Hother & _)|(_ & _ & Hempty & _)].
  - destruct (decide (z = osmid_max)) as [->|Hne]; [done|].
    rewrite Hother by done. destruct (get t z) eqn:Hz; [|done].
    pose proof (Hmin z Hz). apply (inv_ids _ Hinv) in Hz as [_ ?]. lia.
  - unfold get. by rewrite Hempty, lookup_empty.
Qed.

(** X12.  With nothing pending, [pop_mark] returns the largest value of
    [osmid_t], takes the blocks that are left out of the map and clears
    the cursor; from then on a call of [pop_mark] returns the same and
    leaves the state as it is. *)
Theorem pop_mark_empty_fixpoint t :
  reachable t → (∀ z, get t z = false) →
  ∃ t', pop_mark t = Ok (osmid_max, t', true) ∧
        pending t' = ∅ ∧ next_start t' = None ∧
        pop_mark t' = Ok (osmid_max, t', true).
Proof.
  intros [Hinv _]%reachable_inv Hnone.
  destruct (pop_mark_spec t Hinv)
    as (id & t1 & n & p' & _ & _ & Hpop & Hold & Hinv1 & _ & _ & Hres).
  destruct Hres as [(Hget & _)|(_ & -> & Hempty & Hcur)];
    [by rewrite Hnone in Hget|].
  exists t1. rewrite pop_assertion_max in Hpop.
  split; [done|]. split; [done|]. split; [done|].
  destruct (pop_mark_spec t1 Hinv1)
    as (id2 & t2 & n2 & p2 & _ & _ & Hpop2 & Hold2 & _ & _ & _ & Hres2).
  destruct Hres2 as [(Hget & _)|(_ & -> & Hempty2 & Hcur2)].
  - unfold get in Hget. by rewrite Hempty, lookup_empty in Hget.
  - rewrite Hpop2, pop_assertion_max. do 3 f_equal.
    destruct t1, t2. cbn in *. congruence.
Qed.

(** X13.  [mark] of the identifier that [pop_mark] has just returned.
    When that identifier was pending before the pop, the pending
    identifiers are again what they were before the pop.  When it was
    not, nothing was pending, the identifier is the largest value of
    [osmid_t], and after the mark it is the one pending identifier. *)
Theorem pop_then_mark_restores t id t' a :
  reachable t → pop_mark t = Ok (id, t', a) →
  (get t id = true → ∀ z, get (mark id t') z = get t z) ∧
  (get t id = false →
     id = osmid_max ∧ (∀ z, get t z = false) ∧
     ∀ z, get (mark id t') z = bool_decide (z = osmid_max)).
Proof.
  intros [Hinv _]%reachable_inv Hpop.
  destruct (pop_mark_spec t Hinv)
    as (id0 & t0 & n & p' & _ & _ & Hpop' & _ & Hinv' & _ & _ & Hres).
  rewrite Hpop in Hpop'. injection Hpop' as <- <- _.
  destruct Hres as [(Hget & _ & _ & Hother & _)|(Hnothing & -> & Hempty & _)].
  - split; [|congruence]. intros _ z. rewrite get_mark by apply Hinv'.
    case_bool_decide as Hz; [by subst z|by apply Hother].
  - split; [by rewrite Hnothing|]. intros _. split; [done|]. split; [done|].
    intros z. rewrite get_mark by apply Hinv'.
    case_bool_decide as Hz; [done|]. unfold get.
    by rewrite Hempty, lookup_empty.
Qed.

(** X14.  [mark] of an identifier that is below every pending one and is
    not the smallest value of [osmid_t], and then [pop_mark]: the call
    returns that identifier, the condition asserted in it holds, and the
    pending identifiers are as they were before the mark. *)
Theorem mark_then_pop_restores t id :
  reachable t → osmid id → osmid_min < id →
  (∀ z, get t z = true → id < z) →
  ∃ t', pop_mark (mark id t) = Ok (id, t', true) ∧
        ∀ z, get t' z = get t z.
Proof.
  intros [Hinv _]%reachable_inv Hid Hmin Hbelow.
  pose proof (mark_inv t id Hinv Hid) as Hinv'.
  assert (get t id = false) as Hfresh.
  { destruct (get t id) eqn:Hg; [|done]. apply Hbelow in Hg. lia. }
  destruct (pop_mark_spec _ Hinv')
    as (id0 & t' & n & p' & _ & _ & Hpop & _ & _ & _ & _ & Hres).
  destruct Hres as [(Hget & Hsmall & Hgone & Hother & _)|(Hnothing & _)].
  - assert (id0 = id) as ->.
    { rewrite get_mark in Hget by apply Hinv.
      case_bool_decide as Hz; [done|]. apply Hbelow in Hget.
      specialize (Hsmall id). rewrite get_mark in Hsmall by apply Hinv.
      rewrite bool_decide_eq_true_2 in Hsmall by done.
      specialize (Hsmall eq_refl). lia. }
    exists t'. split.
    + rewrite Hpop. do 2 f_equal. unfold pop_assertion. cbn [old_id mark].
      apply Z.ltb_lt in Hmin. by rewrite Hmin.
    + intros z. destruct (decide (z = id)) as [->|Hne]; [congruence|].
      rewrite Hother by done. rewrite get_mark by apply Hinv.
      by rewrite bool_decide_eq_false_2.
  - specialize (Hnothing id). rewrite get_mark in Hnothing by apply Hinv.
    by rewrite bool_decide_eq_true_2 in Hnothing.
Qed.

(** The cursor that the loop of [pop_min] leaves. *)
Lemma pop_min_loop_cursor fuel :
  ∀ n p id p' n', inv p → pop_min_loop fuel n p = Ok (id, p', n') →
    next_start p' = Some (Z.land id BLOCK_MASK) ∨
    (next_start p' = None ∧ pending p' = ∅).
Proof.
  induction fuel as [|fuel IH]; intros n p id p' n' Hinv Hloop;
    cbn [pop_min_loop] in Hloop;
    destruct (bool_decide (is_Some (next_start p)) || negb (map_empty (pending p)))
      eqn:Htest.
  - done.
  - injection Hloop as <- <- <-. right.
    apply orb_false_iff in Htest as [Hs Hm].
    apply negb_false_iff, map_empty_true in Hm.
    apply bool_decide_eq_false in Hs. split; [|done].
    destruct (next_start p); [|done]. destruct Hs. by eexists.
  - assert (pending p ≠ ∅) as Hne.
    { intros Hempty. apply orb_true_iff in Htest as [Hs|Hm].
      - apply bool_decide_eq_true in Hs as [s Hs].
        destruct (inv_cursor _ Hinv s Hs) as (_ & k & b & Hbegin & _).
        rewrite Hempty in Hbegin. done.
      - apply negb_true_iff in Hm.
        apply (proj2 (map_empty_true _)) in Hempty. congruence. }
    destruct (pop_min_body_cases p Hinv Hne) as (k & b & Hbegin & Hcases).
    destruct Hcases as [(o & Ho & _ & _ & Hbody)|(Hnone & Hbody)];
      rewrite Hbody in Hloop; cbn [mbind res_bind] in Hloop.
    + injection Hloop as <- <- <-. left. cbn [next_start].
      by destruct (id_join k o Ho) as [_ ->].
    + destruct (continue_spec p k b Hinv Hbegin Hnone _ eq_refl) as (Hinv' & _).
      by eapply IH.
  - injection Hloop as <- <- <-. right.
    apply orb_false_iff in Htest as [Hs Hm].
    apply negb_false_iff, map_empty_true in Hm.
    apply bool_decide_eq_false in Hs. split; [|done].
    destruct (next_start p); [|done]. destruct Hs. by eexists.
Qed.

(** X15.  The cursor after [pop_mark]: the offset, in its block, of the
    identifier returned, when one was pending; not set, when none was.
    The guard after the call is the identifier returned. *)
Theorem pop_mark_cursor t :
  reachable t →
  ∃ id t' a,
    pop_mark t = Ok (id, t', a) ∧ old_id t' = id ∧
    ((∃ z, get t z = true) → next_start t' = Some (Z.land id BLOCK_MASK)) ∧
    ((∀ z, get t z = false) → next_start t' = None).
Proof.
  intros [Hinv _]%reachable_inv.
  destruct (pop_mark_spec t Hinv)
    as (id & t' & n & p' & Hcount & _ & Hpop & Hold & _ & _ & _ & Hres).
  exists id, t', (pop_assertion id (old_id t)).
  split; [done|]. split; [done|].
  assert (next_start t' = next_start p' ∧ pending t' = pending p') as [Hs Hp].
  { unfold pop_mark, pop_min in Hpop. rewrite Hcount in Hpop.
    cbn [mbind res_bind] in Hpop. by injection Hpop as <-. }
  apply pop_min_loop_cursor in Hcount; [|done]. rewrite <-Hs, <-Hp in Hcount.
  destruct Hres as [(Hget & _ & _ & _ & b' & Hbegin)|(Hnothing & _ & _ & Hcur)].
  - split; [|intros Hnothing; by rewrite Hnothing in Hget].
    intros _. destruct Hcount as [Hc|[_ Hempty]]; [done|].
    by rewrite Hempty in Hbegin.
  - split; [|done]. intros [z Hz]. by rewrite Hnothing in Hz.
Qed.

(** X16.  In every state of a tracker in which the smallest value of
    [osmid_t] is not pending, [pop_mark] returns and the condition
    asserted in it holds.  When some identifier is pending, it returns
    the smallest pending identifier and takes it, and no other, out of
    the pending set.  When none is pending, it returns the largest value
    of [osmid_t], and nothing is pending afterwards. *)
Theorem pop_mark_returns_smallest t :
  reachable t → get t osmid_min = false →
  ∃ id t',
    pop_mark t = Ok (id, t', true) ∧
    ((∃ z, get t z = true) →
       get t id = true ∧ (∀ z, get t z = true → id ≤ z) ∧
       get t' id = false ∧ ∀ z, z ≠ id → get t' z = get t z) ∧
    ((∀ z, get t z = false) →
       id = osmid_max ∧ ∀ z, get t' z = false).
Proof.
  intros Hreach Hnomin. destruct (reachable_inv t Hreach) as [Hinv _].
  destruct (pop_mark_spec t Hinv)
    as (id & t' & n & p' & _ & _ & Hpop & _ & _ & _ & _ & Hres).
  destruct (pop_assertion_holds t _ _ _ Hreach Hnomin Hpop) as [Ha _].
  rewrite Ha in Hpop. exists id, t'. split; [done|].
  destruct Hres as [(Hget & Hmin & Hgone & Hother & _)|
                    (Hnothing & -> & Hempty & _)].
  - split; [done|]. intros Hnothing. congruence.
  - split.
    + intros [z Hz]. by rewrite Hnothing in Hz.
    + intros _. split; [done|]. intros z. unfold get.
      by rewrite Hempty, lookup_empty.
Qed.

End id_tracker.

(** * The claims on concrete trackers

    [osmid_t] is a signed 64-bit integer here, and the trackers are built
    by calls on a fresh one. *)

Lemma osmid_int64 z :
  int64_min ≤ z ≤ int64_max → osmid int64_min int64_max z.
Proof. done. Qed.

(** The calls of a list are well-typed. *)
Ltac ops_ok :=
  repeat first
    [ apply Forall_nil_2
    | apply Forall_cons_2; cbn [op_ok]
    | exact I
    | apply osmid_int64; unfold int64_min, int64_max; lia ].

Lemma reachable_mark_3_5 :
  reachable int64_min int64_max
    (mark int64_min 5 (mark int64_min 3 (init int64_min))).
Proof.
  apply reachable_mark; [apply reachable_mark; [apply reachable_init|]|];
    apply osmid_int64; unfold int64_min, int64_max; lia.
Defined.

Lemma reachable_mark_10 :
  reachable int64_min int64_max (mark int64_min 10 (init int64_min)).
Proof.
  apply reachable_mark; [apply reachable_init|].
  apply osmid_int64; unfold int64_min, int64_max; lia.
Defined.

Lemma get_mark_10 z :
  get (mark int64_min 10 (init int64_min)) z = bool_decide (z = 10).
Proof.
  rewrite get_mark by apply (init_inv int64_min int64_max).
  rewrite get_init. by case_bool_decide.
Qed.

(** [pop_mark] on the tracker with 5 and the smallest value marked. *)
Lemma pop_mark_min_pending_aborts_witness :
  int64_min < int64_max ∧
  reachable int64_min int64_max
    (mark int64_min int64_min (mark int64_min 5 (init int64_min))) ∧
  get (mark int64_min int64_min (mark int64_min 5 (init int64_min)))
    int64_min = true ∧
  ∃ t', pop_mark int64_min int64_max
          (mark int64_min int64_min (mark int64_min 5 (init int64_min))) =
        Ok (int64_min, t', false).
Proof.
  assert (int64_min < int64_max) as Hlt by (unfold int64_min, int64_max; lia).
  assert (reachable int64_min int64_max
            (mark int64_min int64_min (mark int64_min 5 (init int64_min))))
    as Hreach.
  { apply reachable_mark; [apply reachable_mark; [apply reachable_init|]|];
      apply osmid_int64; unfold int64_min, int64_max; lia. }
  assert (get (mark int64_min int64_min (mark int64_min 5 (init int64_min)))
            int64_min = true) as Hget by (vm_compute; reflexivity).
  split; [exact Hlt|]. split; [exact Hreach|]. split; [exact Hget|].
  exact (proj2 (pop_mark_min_pending_aborts int64_min int64_max _
                  Hlt Hreach Hget)).
Defined.

(** C2, as it is stated, fails: with the flag at offset 3 set and no
    other, [next_set 5] returns 3, an offset below [start], where the
    claim has [BLOCK_SIZE]. *)
Lemma next_set_before_start :
  block_wf (block_set block_new 3 true) ∧
  block_get (block_set block_new 3 true) 3 = true ∧
  next_set (block_set block_new 3 true) 5 = Some 3 ∧
  ¬ (∀ b start, block_wf b → 0 ≤ start < BLOCK_SIZE →
       ∃ r, next_set b start = Some r ∧
            (r = BLOCK_SIZE ↔
               ∀ o, start ≤ o < BLOCK_SIZE → block_get b o = false) ∧
            (r ≠ BLOCK_SIZE →
               start ≤ r < BLOCK_SIZE ∧ block_get b r = true ∧
               ∀ o, start ≤ o < r → block_get b o = false)).
Proof.
  assert (block_wf (block_set block_new 3 true)) as Hwf
    by apply block_set_wf, block_new_wf.
  assert (next_set (block_set block_new 3 true) 5 = Some 3) as Hnext
    by (vm_compute; reflexivity).
  split; [done|]. split; [vm_compute; reflexivity|]. split; [done|].
  intros Hclaim.
  destruct (Hclaim (block_set block_new 3 true) 5 Hwf) as (r & Hr & _ & Hfound).
  { change BLOCK_SIZE with 65536. lia. }
  rewrite Hnext in Hr. injection Hr as <-.
  destruct Hfound as [Hle _]; [change BLOCK_SIZE with 65536|]; lia.
Qed.

(** [next_set] on the block with the flag at offset 70 set, from 40. *)
Lemma next_set_word_aligned_witness :
  block_wf (block_set block_new 70 true) ∧ 0 ≤ 40 < BLOCK_SIZE ∧
  ∃ r, next_set (block_set block_new 70 true) 40 = Some r ∧
       (r ≠ BLOCK_SIZE →
          32 * (40 `div` 32) ≤ r < BLOCK_SIZE ∧
          block_get (block_set block_new 70 true) r = true ∧
          ∀ o, 32 * (40 `div` 32) ≤ o < r →
               block_get (block_set block_new 70 true) o = false).
Proof.
  assert (block_wf (block_set block_new 70 true)) as Hwf
    by apply block_set_wf, block_new_wf.
  assert (0 ≤ 40 < BLOCK_SIZE) as Hstart
    by (change BLOCK_SIZE with 65536; lia).
  split; [exact Hwf|]. split; [exact Hstart|].
  destruct (next_set_word_aligned _ 40 Hwf Hstart) as (r & Hr & _ & Hfound & _).
  exists r. split; [exact Hr|exact Hfound].
Defined.

(** C3, as it is stated, fails: after [mark 10] on a fresh tracker,
    [pop_mark] returns 10, the only marked identifier of block 0, and
    block 0 is still in the map. *)
Lemma popped_block_not_removed :
  pop_mark int64_min int64_max (mark int64_min 10 (init int64_min)) =
    Ok (10,
        {| pending :=
             <[0 := block_set (block_set block_new 10 true) 10 false]> ∅;
           old_id := 10;
           next_start := Some 10 |},
        true) ∧
  ¬ (∀ t id t' a,
       reachable int64_min int64_max t →
       pop_mark int64_min int64_max t = Ok (id, t', a) →
       get t id = true →
       (∀ z, z ≫ BLOCK_BITS = id ≫ BLOCK_BITS → get t z = true → z = id) →
       pending t' !! (id ≫ BLOCK_BITS) = None).
Proof.
  assert (pop_mark int64_min int64_max (mark int64_min 10 (init int64_min)) =
    Ok (10,
        {| pending :=
             <[0 := block_set (block_set block_new 10 true) 10 false]> ∅;
           old_id := 10;
           next_start := Some 10 |},
        true)) as Hpop by (vm_compute; reflexivity).
  split; [done|]. intros Hclaim.
  specialize (Hclaim _ _ _ _ reachable_mark_10 Hpop).
  cbn [pending] in Hclaim. change (10 ≫ BLOCK_BITS) with 0 in Hclaim.
  rewrite lookup_insert_eq in Hclaim.
  discriminate Hclaim.
  - by rewrite get_mark_10.
  - intros z _ Hz. rewrite get_mark_10 in Hz. by apply bool_decide_eq_true in Hz.
Qed.

(** The block of the identifier popped last, on the tracker with 10
    marked. *)
Lemma popped_block_stays_witness :
  reachable int64_min int64_max (mark int64_min 10 (init int64_min)) ∧
  pop_mark int64_min int64_max (mark int64_min 10 (init int64_min)) =
    Ok (10,
        {| pending :=
             <[0 := block_set (block_set block_new 10 true) 10 false]> ∅;
           old_id := 10;
           next_start := Some 10 |},
        true) ∧
  get (mark int64_min 10 (init int64_min)) 10 = true ∧
  ∃ b',
    (<[0 := block_set (block_set block_new 10 true) 10 false]> ∅
       : gmap Z block) !! (10 ≫ BLOCK_BITS) = Some b' ∧
    (∀ o, 0 ≤ o < BLOCK_SIZE → block_get b' o = false) ∧
    ∃ id2 t2 a2,
      pop_mark int64_min int64_max
        {| pending :=
             <[0 := block_set (block_set block_new 10 true) 10 false]> ∅;
           old_id := 10;
           next_start := Some 10 |} = Ok (id2, t2, a2) ∧
      pending t2 !! (10 ≫ BLOCK_BITS) = None.
Proof.
  assert (pop_mark int64_min int64_max (mark int64_min 10 (init int64_min)) =
    Ok (10,
        {| pending :=
             <[0 := block_set (block_set block_new 10 true) 10 false]> ∅;
           old_id := 10;
           next_start := Some 10 |},
        true)) as Hpop by (vm_compute; reflexivity).
  assert (get (mark int64_min 10 (init int64_min)) 10 = true) as Hget
    by (vm_compute; reflexivity).
  split; [exact reachable_mark_10|]. split; [exact Hpop|]. split; [exact Hget|].
  destruct (popped_block_stays int64_min int64_max _ _ _ _
              reachable_mark_10 Hpop Hget) as (b' & Hb' & _ & Honly).
  exists b'. split; [exact Hb'|]. apply Honly.
  intros z _ Hz. rewrite get_mark_10 in Hz. by apply bool_decide_eq_true in Hz.
Defined.

(** The failing assertion, for a signed 64-bit [osmid_t]:
    [mark(-9223372036854775808); pop_mark()]. *)
Lemma pop_mark_assertion_fails_on_min_witness :
  int64_min < int64_max ∧
  reachable int64_min int64_max (mark int64_min int64_min (init int64_min)) ∧
  ∃ t', pop_mark int64_min int64_max
          (mark int64_min int64_min (init int64_min)) =
        Ok (int64_min, t', false).
Proof.
  assert (int64_min < int64_max) as Hlt by (unfold int64_min, int64_max; lia).
  split; [exact Hlt|].
  exact (pop_mark_assertion_fails_on_min int64_min int64_max Hlt).
Defined.

(** The same for an unsigned 64-bit [osmid_t], where the smallest value
    is 0: [mark(0); pop_mark()]. *)
Example pop_mark_assertion_fails_on_zero :
  ∃ t', pop_mark 0 uint64_max (mark 0 0 (init 0)) = Ok (0, t', false).
Proof. eexists. vm_compute. reflexivity. Qed.

(** C5, as it is stated, fails: after [mark 5], [pop_mark] (which
    returns 5) and [mark 5] again, 5 is marked, and it is not in the set
    of the identifiers marked minus the identifiers popped. *)
Lemma marked_minus_popped_fails :
  ¬ (∀ ops t tr,
       Forall (op_ok int64_min int64_max) ops →
       run int64_min int64_max ops (init int64_min) = Ok (t, tr) →
       ∀ z, (is_marked z t).1 = true ↔ z ∈ marked_ids tr ∖ popped_ids tr).
Proof.
  intros Hclaim.
  assert (∃ t, run int64_min int64_max [Mark 5; PopMark; Mark 5]
                 (init int64_min) =
               Ok (t, [Marked 5; Popped 5 true; Marked 5]) ∧
               (is_marked 5 t).1 = true) as (t & Hrun & Hmarked).
  { eexists. split; vm_compute; reflexivity. }
  assert (Forall (op_ok int64_min int64_max) [Mark 5; PopMark; Mark 5])
    as Hops.
  { ops_ok. }
  apply (Hclaim _ _ _ Hops Hrun 5) in Hmarked.
  cbn [marked_ids popped_ids] in Hmarked.
  apply elem_of_difference in Hmarked as [_ Hnot]. apply Hnot.
  apply elem_of_union_l, elem_of_singleton. done.
Qed.

(** The replay of a run of four calls, and two marks of 7. *)
Lemma is_marked_replay_witness :
  Forall (op_ok int64_min int64_max) [Mark 5; PopMark; Mark 5; IsMarked 5] ∧
  osmid int64_min int64_max 7 ∧
  (∃ t tr,
     run int64_min int64_max [Mark 5; PopMark; Mark 5; IsMarked 5]
       (init int64_min) = Ok (t, tr) ∧
     ∀ z, (is_marked z t).1 = true ↔ z ∈ replay tr ∅) ∧
  (∃ t1 a t2,
     pop_mark int64_min int64_max
       (mark int64_min 7 (mark int64_min 7 (init int64_min))) = Ok (7, t1, a) ∧
     (∀ z, (is_marked z t1).1 = false) ∧
     pop_mark int64_min int64_max t1 = Ok (int64_max, t2, true)).
Proof.
  assert (∀ z, int64_min ≤ z ≤ int64_max → osmid int64_min int64_max z)
    as Hid by exact osmid_int64.
  assert (Forall (op_ok int64_min int64_max)
            [Mark 5; PopMark; Mark 5; IsMarked 5]) as Hops.
  { ops_ok. }
  assert (osmid int64_min int64_max 7) as H7
    by (apply Hid; unfold int64_min, int64_max; lia).
  split; [exact Hops|]. split; [exact H7|].
  destruct (is_marked_replay int64_min int64_max _ 7 Hops H7)
    as (Hrun & _ & Htwice).
  split; [exact Hrun|exact Htwice].
Defined.

(** [mark] then [is_marked] of the largest identifier, on a fresh
    tracker. *)
Lemma mark_then_is_marked_witness :
  blocks_wf (init int64_min) ∧
  (is_marked int64_max (mark int64_min int64_max (init int64_min))).1 = true ∧
  (is_marked 0 (mark int64_min 0 (init int64_min))).1 = true.
Proof.
  assert (blocks_wf (init int64_min)) as Hwf by apply map_Forall_empty.
  split; [exact Hwf|].
  destruct (mark_then_is_marked int64_min int64_max _ Hwf)
    as (_ & H0 & _ & Hmax).
  split; [exact Hmax|exact H0].
Defined.

(** [mark 70000] on a fresh tracker. *)
Lemma mark_effects_witness :
  blocks_wf (init int64_min) ∧
  get (mark int64_min 70000 (init int64_min)) 70000 = true ∧
  (∀ z, z ≠ 70000 →
        get (mark int64_min 70000 (init int64_min)) z =
          get (init int64_min) z) ∧
  next_start (mark int64_min 70000 (init int64_min)) = None ∧
  old_id (mark int64_min 70000 (init int64_min)) = int64_min.
Proof.
  assert (blocks_wf (init int64_min)) as Hwf by apply map_Forall_empty.
  split; [exact Hwf|].
  destruct (mark_effects int64_min _ 70000 Hwf)
    as (Hset & Hother & Hcur & Hold & _).
  split; [exact Hset|]. split; [exact Hother|]. split; [exact Hcur|exact Hold].
Defined.

(** [is_marked] on the tracker with 10 marked: of 10, of 70000, whose
    block the map does not have, and put into a run of two calls. *)
Lemma is_marked_pure_witness :
  is_marked 10 (mark int64_min 10 (init int64_min)) =
    (true, mark int64_min 10 (init int64_min)) ∧
  is_marked 70000 (mark int64_min 10 (init int64_min)) =
    (false, mark int64_min 10 (init int64_min)) ∧
  ∃ t' r,
    run int64_min int64_max [Mark 3; PopMark]
      (mark int64_min 10 (init int64_min)) =
      Ok (t', [Marked 3; Popped 3 true]) ∧
    run int64_min int64_max [Mark 3; IsMarked 10; PopMark]
      (mark int64_min 10 (init int64_min)) =
      Ok (t', [Marked 3; Tested 10 r; Popped 3 true]).
Proof.
  destruct (is_marked_pure int64_min int64_max
              (mark int64_min 10 (init int64_min)) 10)
    as (Hsame & Htrue & _ & Hrun).
  destruct (is_marked_pure int64_min int64_max
              (mark int64_min 10 (init int64_min)) 70000)
    as (Hsame' & _ & Habsent & _).
  split; [|split].
  - apply injective_projections; [|exact Hsame].
    apply Htrue. exists (block_set block_new 10 true).
    split; vm_compute; reflexivity.
  - apply injective_projections; [|exact Hsame'].
    apply Habsent. vm_compute. reflexivity.
  - assert (∃ t', run int64_min int64_max ([Mark 3] ++ [PopMark])
                    (mark int64_min 10 (init int64_min)) =
                  Ok (t', [Marked 3; Popped 3 true])) as [t' Ht'].
    { eexists. vm_compute. reflexivity. }
    destruct (Hrun [Mark 3] [PopMark] _ _ Ht')
      as (tr1 & tr2 & r & Htr & Hlen & Hins).
    exists t', r. split; [exact Ht'|].
    destruct tr1 as [|e1 [|e2 tr1]]; [discriminate Hlen| |discriminate Hlen].
    injection Htr as <- <-. exact Hins.
Defined.

(** The cursor and the map on the tracker with 3 and 5 marked. *)
Lemma cursor_set_map_nonempty_witness :
  reachable int64_min int64_max
    (mark int64_min 5 (mark int64_min 3 (init int64_min))) ∧
  ∃ id t' a,
    pop_mark int64_min int64_max
      (mark int64_min 5 (mark int64_min 3 (init int64_min))) = Ok (id, t', a).
Proof.
  split; [exact reachable_mark_3_5|].
  destruct (cursor_set_map_nonempty int64_min int64_max _ reachable_mark_3_5)
    as (_ & _ & Hpop).
  exact Hpop.
Defined.

(** The loop of [pop_min] on the tracker with 3 and 5 marked. *)
Lemma pop_min_terminates_witness :
  reachable int64_min int64_max
    (mark int64_min 5 (mark int64_min 3 (init int64_min))) ∧
  ∃ id p' n,
    pop_min_count int64_min int64_max
      (mark int64_min 5 (mark int64_min 3 (init int64_min))) = Ok (id, p', n) ∧
    (n ≤ size (pending (mark int64_min 5 (mark int64_min 3 (init int64_min)))))%nat.
Proof.
  split; [exact reachable_mark_3_5|].
  destruct (pop_min_terminates int64_min int64_max _ reachable_mark_3_5)
    as (id & p' & n & Hcount & Hn & _).
  exists id, p', n. split; [exact Hcount|exact Hn].
Defined.

(** * The further properties on concrete blocks and trackers *)

Lemma block_size_bound z : 0 ≤ z < 65536 → 0 ≤ z < BLOCK_SIZE.
Proof. done. Qed.

Lemma blocks_wf_init : blocks_wf (init int64_min).
Proof. apply map_Forall_empty. Defined.

Lemma reachable_fresh : reachable int64_min int64_max (init int64_min).
Proof. apply reachable_init. Defined.

Lemma block_get_after_set_witness :
  block_wf block_new ∧ 0 ≤ 70 < BLOCK_SIZE ∧ 0 ≤ 71 < BLOCK_SIZE ∧
  block_get (block_set block_new 70 true) 71 =
    (if bool_decide (71 = 70) then true else block_get block_new 71) ∧
  block_wf (block_set block_new 70 true).
Proof.
  assert (0 ≤ 70 < BLOCK_SIZE) as H70 by (apply block_size_bound; lia).
  assert (0 ≤ 71 < BLOCK_SIZE) as H71 by (apply block_size_bound; lia).
  split; [exact block_new_wf|]. split; [exact H70|]. split; [exact H71|].
  exact (block_get_after_set block_new 70 71 true block_new_wf H70 H71).
Defined.

Lemma block_set_undo_witness :
  block_wf block_new ∧ 0 ≤ 70 < BLOCK_SIZE ∧ block_get block_new 70 = false ∧
  block_set (block_set block_new 70 (negb false)) 70 false = block_new.
Proof.
  assert (0 ≤ 70 < BLOCK_SIZE) as H70 by (apply block_size_bound; lia).
  assert (block_get block_new 70 = false) as Hget by (vm_compute; reflexivity).
  split; [exact block_new_wf|]. split; [exact H70|]. split; [exact Hget|].
  exact (block_set_undo block_new 70 false block_new_wf H70 Hget).
Defined.

Lemma next_set_block_new_witness :
  0 ≤ 40 < BLOCK_SIZE ∧ next_set block_new 40 = Some BLOCK_SIZE.
Proof.
  assert (0 ≤ 40 < BLOCK_SIZE) as H40 by (apply block_size_bound; lia).
  split; [exact H40|]. exact (proj1 (next_set_block_new 40 H40)).
Defined.

Lemma get_after_set_witness :
  blocks_wf (init int64_min) ∧
  get (set (init int64_min) 70000 false) 70000 = false ∧
  next_start (set (init int64_min) 70000 false) = None.
Proof.
  split; [exact blocks_wf_init|].
  destruct (get_after_set (init int64_min) 70000 false blocks_wf_init)
    as (Hget & _ & Hcur & _).
  split; [exact Hget|exact Hcur].
Defined.

Lemma set_false_creates_block_witness :
  blocks_wf (init int64_min) ∧
  pending (init int64_min) !! (70000 ≫ BLOCK_BITS) = None ∧
  size (pending (set (init int64_min) 70000 false)) =
    S (size (pending (init int64_min))).
Proof.
  assert (pending (init int64_min) !! (70000 ≫ BLOCK_BITS) = None) as Hnone
    by reflexivity.
  split; [exact blocks_wf_init|]. split; [exact Hnone|].
  destruct (set_false_creates_block (init int64_min) 70000 blocks_wf_init Hnone)
    as (_ & Hsize & _).
  exact Hsize.
Defined.


Lemma mark_comm_witness :
  blocks_wf (init int64_min) ∧
  mark int64_min 5 (mark int64_min 70000 (init int64_min)) =
  mark int64_min 70000 (mark int64_min 5 (init int64_min)).
Proof.
  split; [exact blocks_wf_init|].
  exact (mark_comm int64_min (init int64_min) 5 70000 blocks_wf_init).
Defined.

Lemma pop_mark_twice_ascending_witness :
  reachable int64_min int64_max
    (mark int64_min 5 (mark int64_min 3 (init int64_min))) ∧
  get (mark int64_min 5 (mark int64_min 3 (init int64_min))) int64_min =
    false ∧
  ∃ t1 t2,
    pop_mark int64_min int64_max
      (mark int64_min 5 (mark int64_min 3 (init int64_min))) =
      Ok (3, t1, true) ∧
    pop_mark int64_min int64_max t1 = Ok (5, t2, true) ∧
    (3 < 5 ∨ (5 = int64_max ∧ ∀ z, get t1 z = false)).
Proof.
  assert (get (mark int64_min 5 (mark int64_min 3 (init int64_min)))
            int64_min = false) as Hnomin by (vm_compute; reflexivity).
  split; [exact reachable_mark_3_5|]. split; [exact Hnomin|].
  destruct (pop_mark_twice_ascending int64_min int64_max _
              reachable_mark_3_5 Hnomin)
    as (id1 & t1 & id2 & t2 & H1 & H2 & _ & Hasc).
  assert (∃ u1 u2,
            pop_mark int64_min int64_max
              (mark int64_min 5 (mark int64_min 3 (init int64_min))) =
              Ok (3, u1, true) ∧
            pop_mark int64_min int64_max u1 = Ok (5, u2, true))
    as (u1 & u2 & Hu1 & Hu2).
  { eexists. eexists.
    split; [vm_compute; reflexivity|vm_compute; reflexivity]. }
  rewrite Hu1 in H1. injection H1 as <- <-.
  rewrite Hu2 in H2. injection H2 as <- <-.
  exists u1, u2. split; [exact Hu1|]. split; [exact Hu2|exact Hasc].
Defined.

Lemma drain_ascending_witness :
  Forall (op_ok int64_min int64_max) [Mark 70000; Mark 5; PopMark; Mark 3] ∧
  Forall (λ o, o ≠ Mark int64_min) [Mark 70000; Mark 5; PopMark; Mark 3] ∧
  ∃ t tr t' tr',
    run int64_min int64_max [Mark 70000; Mark 5; PopMark; Mark 3]
      (init int64_min) = Ok (t, tr) ∧
    assertions_hold tr ∧
    run int64_min int64_max (replicate (size (replay tr ∅)) PopMark) t =
      Ok (t', tr') ∧
    assertions_hold tr' ∧
    popped_list tr' = [3; 70000] ∧
    StronglySorted Z.lt (popped_list tr') ∧
    (∀ z, (is_marked z t').1 = false).
Proof.
  assert (Forall (op_ok int64_min int64_max)
            [Mark 70000; Mark 5; PopMark; Mark 3]) as Hops by ops_ok.
  assert (Forall (λ o, o ≠ Mark int64_min)
            [Mark 70000; Mark 5; PopMark; Mark 3]) as Hnomin.
  { repeat first
      [ apply Forall_nil_2
      | apply Forall_cons_2
      | intros H; discriminate H
      | intros H; injection H as H; vm_compute in H; discriminate H ]. }
  split; [exact Hops|]. split; [exact Hnomin|].
  destruct (drain_ascending int64_min int64_max _ Hops Hnomin)
    as (t & tr & t' & tr' & Hrun & Hflags & Hdrain & Hflags' & Hsorted & _ & Hnone).
  assert (∃ u ur,
            run int64_min int64_max [Mark 70000; Mark 5; PopMark; Mark 3]
              (init int64_min) = Ok (u, ur) ∧
            ∃ u' ur',
              run int64_min int64_max
                (replicate (size (replay ur ∅)) PopMark) u = Ok (u', ur') ∧
              popped_list ur' = [3; 70000])
    as (u & ur & Hu & u' & ur' & Hu' & Hlist).
  { eexists. eexists. split; [vm_compute; reflexivity|].
    eexists. eexists.
    split; [vm_compute; reflexivity|vm_compute; reflexivity]. }
  rewrite Hu in Hrun. injection Hrun as <- <-.
  rewrite Hu' in Hdrain. injection Hdrain as <- <-.
  exists u, ur, u', ur'.
  split; [exact Hu|]. split; [exact Hflags|]. split; [exact Hu'|].
  split; [exact Hflags'|]. split; [exact Hlist|].
  split; [exact Hsorted|exact Hnone].
Defined.

Lemma block_count_witness :
  reachable int64_min int64_max
    (mark int64_min 5 (mark int64_min 3 (init int64_min))) ∧
  ∀ id,
    size (pending (mark int64_min id
                     (mark int64_min 5 (mark int64_min 3 (init int64_min))))) =
    match pending (mark int64_min 5 (mark int64_min 3 (init int64_min)))
            !! (id ≫ BLOCK_BITS) with
    | Some _ =>
        size (pending (mark int64_min 5 (mark int64_min 3 (init int64_min))))
    | None =>
        S (size (pending (mark int64_min 5 (mark int64_min 3 (init int64_min)))))
    end.
Proof.
  split; [exact reachable_mark_3_5|].
  exact (proj2 (block_count int64_min int64_max _ reachable_mark_3_5)).
Defined.

Lemma pop_mark_max_means_drained_witness :
  reachable int64_min int64_max (init int64_min) ∧
  pop_mark int64_min int64_max (init int64_min) =
    Ok (int64_max,
        {| pending := ∅; old_id := int64_max; next_start := None |}, true) ∧
  ∀ z, get {| pending := ∅; old_id := int64_max; next_start := None |} z = false.
Proof.
  assert (pop_mark int64_min int64_max (init int64_min) =
    Ok (int64_max,
        {| pending := ∅; old_id := int64_max; next_start := None |}, true))
    as Hpop by (vm_compute; reflexivity).
  split; [exact reachable_fresh|]. split; [exact Hpop|].
  exact (proj2 (pop_mark_max_means_drained int64_min int64_max _ _ _
                  reachable_fresh Hpop)).
Defined.

Lemma pop_mark_empty_fixpoint_witness :
  reachable int64_min int64_max (init int64_min) ∧
  (∀ z, get (init int64_min) z = false) ∧
  ∃ t', pop_mark int64_min int64_max (init int64_min) =
          Ok (int64_max, t', true) ∧
        pop_mark int64_min int64_max t' = Ok (int64_max, t', true).
Proof.
  split; [exact reachable_fresh|]. split; [exact (get_init int64_min)|].
  destruct (pop_mark_empty_fixpoint int64_min int64_max _ reachable_fresh
              (get_init int64_min)) as (t' & H1 & _ & _ & H2).
  exists t'. split; [exact H1|exact H2].
Defined.

Lemma pop_then_mark_restores_witness :
  reachable int64_min int64_max (mark int64_min 10 (init int64_min)) ∧
  pop_mark int64_min int64_max (mark int64_min 10 (init int64_min)) =
    Ok (10,
        {| pending :=
             <[0 := block_set (block_set block_new 10 true) 10 false]> ∅;
           old_id := 10;
           next_start := Some 10 |},
        true) ∧
  get (mark int64_min 10 (init int64_min)) 10 = true ∧
  ∀ z, get (mark int64_min 10
              {| pending :=
                   <[0 := block_set (block_set block_new 10 true) 10 false]> ∅;
                 old_id := 10;
                 next_start := Some 10 |}) z =
       get (mark int64_min 10 (init int64_min)) z.
Proof.
  assert (pop_mark int64_min int64_max (mark int64_min 10 (init int64_min)) =
    Ok (10,
        {| pending :=
             <[0 := block_set (block_set block_new 10 true) 10 false]> ∅;
           old_id := 10;
           next_start := Some 10 |},
        true)) as Hpop by (vm_compute; reflexivity).
  assert (get (mark int64_min 10 (init int64_min)) 10 = true) as Hget
    by (vm_compute; reflexivity).
  split; [exact reachable_mark_10|]. split; [exact Hpop|]. split; [exact Hget|].
  exact (proj1 (pop_then_mark_restores int64_min int64_max _ _ _ _
                  reachable_mark_10 Hpop) Hget).
Defined.

Lemma mark_then_pop_restores_witness :
  reachable int64_min int64_max (mark int64_min 10 (init int64_min)) ∧
  osmid int64_min int64_max 7 ∧ int64_min < 7 ∧
  (∀ z, get (mark int64_min 10 (init int64_min)) z = true → 7 < z) ∧
  get (mark int64_min 10 (init int64_min)) 10 = true ∧
  ∃ t', pop_mark int64_min int64_max
          (mark int64_min 7 (mark int64_min 10 (init int64_min))) =
          Ok (7, t', true) ∧
        ∀ z, get t' z = get (mark int64_min 10 (init int64_min)) z.
Proof.
  assert (osmid int64_min int64_max 7) as Hid
    by (apply osmid_int64; unfold int64_min, int64_max; lia).
  assert (int64_min < 7) as Hmin by (unfold int64_min; lia).
  assert (∀ z, get (mark int64_min 10 (init int64_min)) z = true → 7 < z)
    as Hbelow.
  { intros z Hz. rewrite get_mark_10 in Hz.
    apply bool_decide_eq_true in Hz. lia. }
  split; [exact reachable_mark_10|]. split; [exact Hid|]. split; [exact Hmin|].
  split; [exact Hbelow|]. split; [vm_compute; reflexivity|].
  exact (mark_then_pop_restores int64_min int64_max _ 7
           reachable_mark_10 Hid Hmin Hbelow).
Defined.

Lemma pop_mark_cursor_witness :
  reachable int64_min int64_max
    (mark int64_min 5 (mark int64_min 3 (init int64_min))) ∧
  ∃ id t' a,
    pop_mark int64_min int64_max
      (mark int64_min 5 (mark int64_min 3 (init int64_min))) = Ok (id, t', a) ∧
    old_id t' = id.
Proof.
  split; [exact reachable_mark_3_5|].
  destruct (pop_mark_cursor int64_min int64_max _ reachable_mark_3_5)
    as (id & t' & a & Hpop & Hold & _).
  exists id, t', a. split; [exact Hpop|exact Hold].
Defined.

Lemma pop_mark_returns_smallest_witness :
  reachable int64_min int64_max
    (mark int64_min 5 (mark int64_min 3 (init int64_min))) ∧
  get (mark int64_min 5 (mark int64_min 3 (init int64_min))) int64_min =
    false ∧
  (∃ z, get (mark int64_min 5 (mark int64_min 3 (init int64_min))) z = true) ∧
  ∃ t',
    pop_mark int64_min int64_max
      (mark int64_min 5 (mark int64_min 3 (init int64_min))) =
      Ok (3, t', true) ∧
    get (mark int64_min 5 (mark int64_min 3 (init int64_min))) 3 = true ∧
    (∀ z, get (mark int64_min 5 (mark int64_min 3 (init int64_min))) z = true →
          3 ≤ z) ∧
    get t' 3 = false ∧ get t' 5 = true.
Proof.
  assert (get (mark int64_min 5 (mark int64_min 3 (init int64_min)))
            int64_min = false) as Hnomin by (vm_compute; reflexivity).
  assert (∃ z, get (mark int64_min 5 (mark int64_min 3 (init int64_min))) z =
               true) as Hsome by (exists 3; vm_compute; reflexivity).
  split; [exact reachable_mark_3_5|]. split; [exact Hnomin|].
  split; [exact Hsome|].
  destruct (pop_mark_returns_smallest int64_min int64_max _
              reachable_mark_3_5 Hnomin) as (id & t' & Hpop & Hfound & _).
  assert (∃ u, pop_mark int64_min int64_max
                 (mark int64_min 5 (mark int64_min 3 (init int64_min))) =
               Ok (3, u, true)) as [u Hu].
  { eexists. vm_compute. reflexivity. }
  rewrite Hu in Hpop. injection Hpop as <- <-.
  destruct (Hfound Hsome) as (Hget & Hmin & Hgone & Hother).
  exists u. split; [exact Hu|]. split; [exact Hget|]. split; [exact Hmin|].
  split; [exact Hgone|]. rewrite Hother by lia. vm_compute. reflexivity.
Defined.
